(** * blinksocks-gui: the subprocess service manager

    A shallow embedding of [core/src/utils/service_manager.js]: the message
    queue of a forked worker, the polling [send]/[scanQueue]/[consume] loop
    behind [invoke], and the registry operations [start], [stop],
    [getServices], [getServiceInfo] and [getMetrics] over the module-level
    [subprocesses] map.

    The manager runs on one event loop.  A run is a list of events: a
    registry call, a message from a worker, or one turn of a pending
    [consume] callback.  Asynchronous functions are cut at the [await] of
    an [invoke]: the part before it runs inside the call event, the part
    after it runs in the turn that settles the promise, before the next
    event.  The [await] of a promise that is settled already (the info of
    a service that does not run, inside [getServices]) lets no message and
    no callback in and is not a cut.

    A second part embeds what the server module computes by itself: the
    handler of the log route and the authentication by token, with the
    imported [path.join], [hash] and constants as parameters. *)

From Stdlib Require Import Ascii String ZArith.
From stdpp Require Import base list strings pretty sorting.

Open Scope string_scope.
Open Scope list_scope.

(** ** JavaScript values

    Worker messages cross the IPC channel as JSON, so the values seen by
    the manager are JSON values, plus [undefined] for a missing property
    or argument. *)

#[local] Unset Elimination Schemes.
Inductive value : Type :=
| VUndefined
| VNull
| VBool (b : bool)
| VNum (n : Z)
| VStr (s : string)
| VArr (elements : list value)
| VObj (properties : list (string * value)).
#[local] Set Elimination Schemes.

(** [Error(payload)] carries the payload it was built from; [TypeError] is
    what the engine throws on a property read of [undefined]/[null] or on a
    call of something that is not a function. *)
Inductive error : Type :=
| Error (message : value)
| TypeError.

(** Completion of a synchronous piece of code. *)
Inductive completion (A : Type) : Type :=
| Normal (a : A)
| Throw (e : error).
Arguments Normal {A} a.
Arguments Throw {A} e.

Definition bind {A B} (c : completion A) (k : A → completion B) : completion B :=
  match c with
  | Normal a => k a
  | Throw e => Throw e
  end.

Notation "'let*' x := c 'in' k" := (bind c (λ x, k))
  (at level 10, x name, c at level 100, k at level 200).

(** The [typeof] operator. *)
Definition typeof (v : value) : string :=
  match v with
  | VUndefined => "undefined"
  | VNull => "object"
  | VBool _ => "boolean"
  | VNum _ => "number"
  | VStr _ => "string"
  | VArr _ => "object"
  | VObj _ => "object"
  end.

(** *** Property keys and plain objects *)

Definition digit_value (c : ascii) : option N :=
  let n := N_of_ascii c in
  if decide (48 ≤ n ∧ n ≤ 57)%N then Some (n - 48)%N else None.

Fixpoint digits_value (acc : N) (s : string) : option N :=
  match s with
  | EmptyString => Some acc
  | String c s' =>
      match digit_value c with
      | Some d => digits_value (10 * acc + d)%N s'
      | None => None
      end
  end.

(** A key is an array index when it is the canonical decimal form of an
    integer below [2^32 - 1]. *)
Definition array_index (k : string) : option N :=
  match k with
  | EmptyString => None
  | String c rest =>
      if decide (c = "0"%char ∧ rest ≠ EmptyString) then None
      else match digits_value 0 k with
           | Some n => if decide (n < 4294967295)%N then Some n else None
           | None => None
           end
  end.

(** The property list of an object is kept in the engine's own-key order:
    array indices ascending, then the other keys in creation order. *)
Definition object := list (string * value).

Fixpoint own_property (k : string) (o : object) : option value :=
  match o with
  | [] => None
  | (k', v) :: o' => if decide (k' = k) then Some v else own_property k o'
  end.

Fixpoint replace_property (k : string) (v : value) (o : object) : object :=
  match o with
  | [] => []
  | (k', v') :: o' =>
      if decide (k' = k) then (k', v) :: o' else (k', v') :: replace_property k v o'
  end.

Fixpoint insert_index (n : N) (k : string) (v : value) (o : object) : object :=
  match o with
  | [] => [(k, v)]
  | (k', v') :: o' =>
      match array_index k' with
      | Some n' => if decide (n < n')%N then (k, v) :: o
                   else (k', v') :: insert_index n k v o'
      | None => (k, v) :: o
      end
  end.

(** A data property [k] with value [v] is defined on [o], as an object
    literal and a spread do. *)
Definition define_property (k : string) (v : value) (o : object) : object :=
  match own_property k o with
  | Some _ => replace_property k v o
  | None =>
      match array_index k with
      | Some n => insert_index n k v o
      | None => o ++ [(k, v)]
      end
  end.

(** The assignment [o[k] = v] on an object made by [{}].  Its prototype
    has one accessor, [__proto__]: assigning to that key changes the
    prototype, which is not among the own properties, and defines nothing. *)
Definition set_property (k : string) (v : value) (o : object) : object :=
  if decide (k = "__proto__") then o else define_property k v o.

(** Own enumerable data properties, as the spread [...v] copies them. *)
Definition own_properties (v : value) : object :=
  match v with
  | VObj o => o
  | VArr l => imap (λ i x, (pretty i, x)) l
  | VStr s => imap (λ i c, (pretty i, VStr (String c EmptyString))) (list_ascii_of_string s)
  | _ => []
  end.

(** [{ ...base, ...v }] where [base] is already built. *)
Definition spread (base : object) (v : value) : object :=
  fold_left (λ o kv, define_property kv.1 kv.2 o) (own_properties v) base.

(** [v.k] for a data property [k].  Prototype members are functions and
    are not JSON values; [indexOf] is modelled apart, below. *)
Definition get_property (v : value) (k : string) : completion value :=
  match v with
  | VUndefined | VNull => Throw TypeError
  | VObj o => Normal (default VUndefined (own_property k o))
  | VArr l =>
      if decide (k = "length") then Normal (VNum (Z.of_nat (length l)))
      else match array_index k with
           | Some n => Normal (default VUndefined (l !! N.to_nat n))
           | None => Normal VUndefined
           end
  | VStr s =>
      if decide (k = "length") then Normal (VNum (Z.of_nat (String.length s)))
      else match array_index k with
           | Some n =>
               Normal (default VUndefined
                         ((λ c, VStr (String c EmptyString)) <$> String.get (N.to_nat n) s))
           | None => Normal VUndefined
           end
  | VBool _ | VNum _ => Normal VUndefined
  end.

(** *** Strings *)

(** [s.indexOf(t)]: the least position at which [t] occurs in [s], or -1. *)
Fixpoint indexOf_from (k : nat) (s t : string) : Z :=
  if String.prefix t s then Z.of_nat k
  else match s with
       | EmptyString => (-1)%Z
       | String _ s' => indexOf_from (S k) s' t
       end.

Definition indexOf (s t : string) : Z := indexOf_from 0 s t.

(** [v === s] for a string [s]. *)
Definition strict_equals_string (v : value) (s : string) : bool :=
  match v with
  | VStr s' => bool_decide (s' = s)
  | _ => false
  end.

(** [l.indexOf(s)] on an array, which compares with [===]. *)
Fixpoint array_indexOf_from (k : nat) (l : list value) (s : string) : Z :=
  match l with
  | [] => (-1)%Z
  | v :: l' =>
      if strict_equals_string v s then Z.of_nat k
      else array_indexOf_from (S k) l' s
  end.

(** [t.indexOf(s) === 0] for whatever [t] the message carries: strings and
    arrays have an [indexOf]; on [undefined] and [null] the member read
    throws, on anything else the member is not a function. *)
Definition indexOf_is_zero (t : value) (s : string) : completion bool :=
  match t with
  | VStr ts => Normal (bool_decide (indexOf ts s = 0%Z))
  | VArr l => Normal (bool_decide (array_indexOf_from 0 l s = 0%Z))
  | _ => Throw TypeError
  end.

(** ** The forked worker and its message queue ([fork], lines 17-78) *)

(** The request [{ type: method, payload: args }] written to the channel. *)
Record action : Type := Action { action_type : string; action_payload : value }.

(** The ['message'] listener, lines 21-27. *)
Definition on_message (queue : list value) (message : value) : list value :=
  if bool_decide (typeof message ≠ "object") then
    (* drop non-object message *)
    queue
  else queue ++ [message].

(** How [scanQueue] settles the promise of [send]. *)
Inductive settlement : Type :=
| Resolve (payload : value)
| Reject (err : error).

(** What [scanQueue] returns: the index of the message it settled the
    promise with, or -1 ([NotFound]). *)
Inductive scan : Type :=
| Found (i : nat) (s : settlement)
| NotFound.

(** [scanQueue], lines 34-51, from index [i] on. *)
Fixpoint scanQueue_from (i : nat) (queue : list value) (action_type : string)
  : completion scan :=
  match queue with
  | [] => Normal NotFound
  | message :: rest =>
      let* type := get_property message "type" in
      let* related := indexOf_is_zero type action_type in
      if related then
        let* type := get_property message "type" in
        let* payload := get_property message "payload" in
        if strict_equals_string type (action_type +:+ "/error") then
          Normal (Found i (Reject (Error payload)))
        else if strict_equals_string type (action_type +:+ "/done") then
          Normal (Found i (Resolve payload))
        else scanQueue_from (S i) rest action_type
      else scanQueue_from (S i) rest action_type
  end.

Definition scanQueue (queue : list value) (action_type : string) : completion scan :=
  scanQueue_from 0 queue action_type.

(** One turn of [consume], lines 54-64: the queue it leaves, and the
    settlement if the promise was settled in this turn. *)
Definition consume (queue : list value) (action_type : string)
  : completion (list value * option settlement) :=
  let* index := scanQueue queue action_type in
  match index with
  | NotFound => Normal (queue, None)
  | Found i s => Normal (delete i queue, Some s)
  end.

(** The state behind one handle returned by [fork]: the queue filled by
    the ['message'] listener, the requests written to the channel by
    [subprocess.send], and whether [kill] was called on the process. *)
Record worker : Type := Worker {
  messageQueue : list value;
  sent : list action;
  killed : bool
}.

(** ** The [subprocesses] map (line 12)

    A JavaScript [Map] with string keys: entries in insertion order;
    [delete] empties the slot of an entry (live iterators keep their
    position), [set] on a present key keeps its slot. *)
Abbreviation Map V := (list (option (string * V))).

Fixpoint Map_get {V} (m : Map V) (key : string) : option V :=
  match m with
  | [] => None
  | Some (k, v) :: m' => if decide (k = key) then Some v else Map_get m' key
  | None :: m' => Map_get m' key
  end.

Fixpoint Map_set {V} (m : Map V) (key : string) (v : V) : Map V :=
  match m with
  | [] => [Some (key, v)]
  | Some (k, v') :: m' =>
      if decide (k = key) then Some (k, v) :: m' else Some (k, v') :: Map_set m' key v
  | None :: m' => None :: Map_set m' key v
  end.

Fixpoint Map_delete {V} (m : Map V) (key : string) : Map V :=
  match m with
  | [] => []
  | Some (k, v') :: m' =>
      if decide (k = key) then None :: m' else Some (k, v') :: Map_delete m' key
  | None :: m' => None :: Map_delete m' key
  end.

(** The keys a fresh iteration visits, in order. *)
Definition Map_keys {V} (m : Map V) : list string := omap (fmap fst) m.

(** ** Asynchronous functions, cut at their [await] *)

(** The code that runs after an awaited [invoke] settles. *)
Inductive frame : Type :=
| start_catch (id : string)                     (* start, lines 88-93 *)
| stop_then (id : string) (sub : nat)           (* stop, lines 99-101 *)
| getServiceInfo_then                           (* getServiceInfo, lines 118-121 *)
| getServices_then (services : object) (id : string) (next : nat).
                                                (* getServices, lines 109-112 *)

(** An outstanding [send]: its [consume] callback is armed with
    [setImmediate] and the promise is not settled yet. *)
Record request : Type := Request {
  request_sub : nat;
  request_type : string;
  request_then : list frame
}.

(** A map value is a handle (the number of its worker) or [null]. *)
Record state : Type := State {
  subprocesses : Map (option nat);
  workers : list worker;
  outstanding : list request
}.

Definition initial : state := State [] [] [].

Inductive outcome : Type :=
| Resolved (v : value)
| Rejected (err : error).

(** An asynchronous function either returns, or stops at
    [await sub.invoke(method, args)] with [k] left to run. *)
Inductive suspended : Type :=
| Return (r : outcome)
| Await (sub : nat) (method : string) (args : value) (k : list frame).

Definition settle (s : settlement) : outcome :=
  match s with
  | Resolve payload => Resolved payload
  | Reject err => Rejected err
  end.

(** [fork()], lines 17-19: a new process with an empty queue. *)
Definition fork (σ : state) : state * nat :=
  (State (subprocesses σ) (workers σ ++ [Worker [] [] false]) (outstanding σ),
   length (workers σ)).

(** [sub.getProcess().kill()] *)
Definition kill (σ : state) (sub : nat) : state :=
  State (subprocesses σ)
        (alter (λ w, Worker (messageQueue w) (sent w) true) sub (workers σ))
        (outstanding σ).

(** [sub.invoke(method, args)], lines 74-76 and 29-33: the request goes to
    the process at once and [consume] is armed.  The registry invokes only
    handles it holds, and it gives up a handle when it kills the process;
    a send on a closed channel is not modelled. *)
Definition invoke (σ : state) (sub : nat) (method : string) (args : value)
    (k : list frame) : state :=
  State (subprocesses σ)
        (alter (λ w, Worker (messageQueue w) (sent w ++ [Action method args]) (killed w))
               sub (workers σ))
        (outstanding σ ++ [Request sub method k]).

(** The three status constants are imported from [../constants]; the
    manager only stores them in the objects it returns. *)
Class constants : Type := Constants {
  SERVICE_STATUS_INIT : value;
  SERVICE_STATUS_RUNNING : value;
  SERVICE_STATUS_STOPPED : value
}.

Section ServiceManager.

Context `{K : constants}.

(** [start(id, config)], lines 82-89. *)
Definition start (σ : state) (id : string) (config : value) : state * suspended :=
  let '(σ, sub) :=
    match Map_get (subprocesses σ) id with
    | Some (Some sub) => (σ, sub)
    | _ =>
        let '(σ, sub) := fork σ in
        (State (Map_set (subprocesses σ) id (Some sub)) (workers σ) (outstanding σ), sub)
    end in
  (σ, Await sub "start" config [start_catch id]).

(** [stop(id)], lines 96-99 and 102-104. *)
Definition stop (σ : state) (id : string) : suspended :=
  match Map_get (subprocesses σ) id with
  | Some (Some sub) => Await sub "stop" VUndefined [stop_then id sub]
  | _ => Return (Rejected (Error (VStr ("service(" +:+ id +:+ ") is not found"))))
  end.

(** [getServiceInfo(id)], lines 115-131. *)
Definition getServiceInfo (σ : state) (id : string) : suspended :=
  match Map_get (subprocesses σ) id with
  | Some (Some sub) => Await sub "getStatus" VUndefined [getServiceInfo_then]
  | None => Return (Resolved (VObj [("status", SERVICE_STATUS_INIT)]))
  | Some None => Return (Resolved (VObj [("status", SERVICE_STATUS_STOPPED)]))
  end.

(** [getMetrics(id, type)], lines 134-154; [return await e] hands the
    settlement of [e] through, so nothing is left to run after it. *)
Definition getMetrics (σ : state) (id : string) (type : value) : suspended :=
  match Map_get (subprocesses σ) id with
  | Some (Some sub) =>
      if strict_equals_string type "cpu" then Await sub "getCPUMetrics" VUndefined []
      else if strict_equals_string type "memory" then Await sub "getMemoryMetrics" VUndefined []
      else if strict_equals_string type "speed" then Await sub "getSpeedMetrics" VUndefined []
      else if strict_equals_string type "connections" then
        Await sub "getConnectionsMetrics" VUndefined []
      else if strict_equals_string type "traffic" then Await sub "getTrafficMetrics" VUndefined []
      else Return (Resolved VUndefined)
  | _ => Return (Resolved (VArr []))
  end.

(** The loop of [getServices], lines 109-112, over the slots the iterator
    has not visited yet; [next] is the position of the first of them. *)
Fixpoint getServices_from (σ : state) (entries : Map (option nat)) (next : nat)
    (services : object) : suspended :=
  match entries with
  | [] => Return (Resolved (VObj services))
  | None :: entries' => getServices_from σ entries' (S next) services
  | Some (id, _) :: entries' =>
      match getServiceInfo σ id with
      | Return (Resolved info) =>
          getServices_from σ entries' (S next) (set_property id info services)
      | Return (Rejected err) => Return (Rejected err)
      | Await sub method args k =>
          Await sub method args (k ++ [getServices_then services id (S next)])
      end
  end.

(** [getServices()], lines 107-113. *)
Definition getServices (σ : state) : suspended :=
  getServices_from σ (subprocesses σ) 0 [] .

(** What one frame does with the settlement of the promise it awaited. *)
Definition run_frame (f : frame) (σ : state) (r : outcome) : state * suspended :=
  match f, r with
  | start_catch id, Resolved _ => (σ, Return (Resolved VUndefined))
  | start_catch id, Rejected err =>
      (State (Map_delete (subprocesses σ) id) (workers σ) (outstanding σ),
       Return (Rejected err))
  | stop_then id sub, Resolved _ =>
      let σ := kill σ sub in
      (State (Map_set (subprocesses σ) id None) (workers σ) (outstanding σ),
       Return (Resolved VUndefined))
  | stop_then id sub, Rejected err => (σ, Return (Rejected err))
  | getServiceInfo_then, Resolved payload =>
      (σ, Return (Resolved (VObj (spread [("status", SERVICE_STATUS_RUNNING)] payload))))
  | getServiceInfo_then, Rejected err => (σ, Return (Rejected err))
  | getServices_then services id next, Resolved info =>
      (σ, getServices_from σ (drop next (subprocesses σ)) next
            (set_property id info services))
  | getServices_then services id next, Rejected err => (σ, Return (Rejected err))
  end.

(** The frames run innermost first, until one of them awaits again. *)
Fixpoint resume (k : list frame) (σ : state) (r : outcome) : state * suspended :=
  match k with
  | [] => (σ, Return r)
  | f :: k' =>
      match run_frame f σ r with
      | (σ', Return r') => resume k' σ' r'
      | (σ', Await sub method args k2) => (σ', Await sub method args (k2 ++ k'))
      end
  end.

(** ** The event loop *)

Inductive call : Type :=
| Start (id : string) (config : value)
| Stop (id : string)
| GetServices
| GetServiceInfo (id : string)
| GetMetrics (id : string) (type : value).

Inductive event : Type :=
| ECall (c : call)                            (* the GUI layer calls the registry *)
| EMessage (sub : nat) (message : value)      (* worker [sub] emits a message *)
| ETurn (n : nat).                            (* [consume] of the n-th outstanding request *)

(** What a turn of the loop lets an observer see: the promise of a registry
    call settles, nothing settles, or an exception leaves a callback. *)
Inductive response : Type :=
| Settled (r : outcome)
| Pending
| Uncaught (e : error).

Definition proceed (σ : state) (s : suspended) : state * response :=
  match s with
  | Return r => (σ, Settled r)
  | Await sub method args k => (invoke σ sub method args k, Pending)
  end.

Definition enter (σ : state) (c : call) : state * suspended :=
  match c with
  | Start id config => start σ id config
  | Stop id => (σ, stop σ id)
  | GetServices => (σ, getServices σ)
  | GetServiceInfo id => (σ, getServiceInfo σ id)
  | GetMetrics id type => (σ, getMetrics σ id type)
  end.

Definition step (σ : state) (e : event) : state * response :=
  match e with
  | ECall c => let '(σ, s) := enter σ c in proceed σ s
  | EMessage sub message =>
      (State (subprocesses σ)
             (alter (λ w, Worker (on_message (messageQueue w) message) (sent w) (killed w))
                    sub (workers σ))
             (outstanding σ),
       Pending)
  | ETurn n =>
      match outstanding σ !! n with
      | None => (σ, Pending)
      | Some req =>
          match workers σ !! request_sub req with
          | None => (σ, Pending)
          | Some w =>
              match consume (messageQueue w) (request_type req) with
              | Throw e =>
                  (* the callback dies before it re-arms itself *)
                  (State (subprocesses σ) (workers σ) (delete n (outstanding σ)), Uncaught e)
              | Normal (_, None) => (σ, Pending)
              | Normal (queue, Some s) =>
                  let σ := State (subprocesses σ)
                                 (<[request_sub req := Worker queue (sent w) (killed w)]>
                                    (workers σ))
                                 (delete n (outstanding σ)) in
                  let '(σ, s') := resume (request_then req) σ (settle s) in
                  proceed σ s'
              end
          end
      end
  end.

(** Events are taken until the first one that settles a call or throws. *)
Fixpoint await (σ : state) (es : list event) : state * response :=
  match es with
  | [] => (σ, Pending)
  | e :: es' =>
      match step σ e with
      | (σ', Pending) => await σ' es'
      | done => done
      end
  end.

(** The state a run ends in, and all states along it. *)
Definition run (σ : state) (es : list event) : state :=
  fold_left (λ σ e, (step σ e).1) es σ.


End ServiceManager.

(** * The HTTP and socket server

    The parts of the server module that compute: the log route, and the
    authentication of the socket middleware and of [/verify].  What the
    frameworks do with a handler's answer is theirs. *)

(** ** The log route of the HTTP interface ([startServer], lines 141-158) *)

(** The class [[0-9a-z\-]] of the pattern. *)
Definition id_char (c : ascii) : bool :=
  let n := N_of_ascii c in
  bool_decide ((48 ≤ n ∧ n ≤ 57) ∨ (97 ≤ n ∧ n ≤ 122) ∨ n = 45)%N.

(** [n] characters of the class at the head of [s]. *)
Fixpoint id_chars (n : nat) (s : string) : bool :=
  match n with
  | 0 => true
  | S n' =>
      match s with
      | EmptyString => false
      | String c s' => id_char c && id_chars n' s'
      end
  end.

(** [/[0-9a-z\-]{36}/.test(s)]: the pattern has no anchor, so a match is
    tried at every position of [s]. *)
Fixpoint id_pattern_test (s : string) : bool :=
  id_chars 36 s ||
  match s with
  | EmptyString => false
  | String _ s' => id_pattern_test s'
  end.

(** The order of [sort()] without a comparator: strings by their code
    units. *)
Definition code_unit_le (s t : string) : Prop := String.leb s t = true.

#[global] Instance code_unit_le_dec s t : Decision (code_unit_le s t) :=
  decide (String.leb s t = true).

(** What a handler of the router answers with: [ctx.status = code],
    [ctx.throw(code)], or the stream of a file as the body. *)
Inductive answer : Type :=
| ctx_status (code : nat)
| ctx_throw (code : nat)
| ctx_body (logFile : string).

Section Logs.

(** [name => path.join(RUNTIME_LOG_PATH, name)]; the path is imported
    from [../constants]. *)
Variable join : string → string.

Definition logFiles (id : string) (files : list string) : list string :=
  join <$> merge_sort code_unit_le
             (filter (λ name, String.prefix (id +:+ ".log") name = true) files).

(** The handler of [/logs/:id], for the listing [files] of the log
    directory. *)
Definition get_logs (id : string) (files : list string) : answer :=
  if id_pattern_test id then
    let logFile := default "" (head (logFiles id files)) in
    if decide (logFile = "") then ctx_throw 404 else ctx_body logFile
  else ctx_throw 400.

End Logs.

(** ** Authentication ([createWrappedUsers] and its callers, lines 101-140) *)

(** [a === b] when [a] comes from the user database and [b] from a
    request: arrays and objects are equal only to themselves, and the
    two sides never hold the same one. *)
Definition strict_equals (a b : value) : bool :=
  match a, b with
  | VUndefined, VUndefined | VNull, VNull => true
  | VBool x, VBool y => bool_decide (x = y)
  | VNum x, VNum y => bool_decide (x = y)
  | VStr x, VStr y => bool_decide (x = y)
  | _, _ => false
  end.

(** [Object.assign(target, source)] on a target made by an object
    literal. *)
Definition Object_assign (target : object) (source : value) : object :=
  fold_left (λ o kv, set_property kv.1 kv.2 o) (own_properties source) target.

(** [wrapped.find((user) => user.token === token)] *)
Fixpoint find_token (wrapped : list value) (token : value) : completion (option value) :=
  match wrapped with
  | [] => Normal None
  | user :: rest =>
      let* user_token := get_property user "token" in
      if strict_equals user_token token then Normal (Some user) else find_token rest token
  end.

(** How the socket middleware calls [next]: plainly, with the user put
    on the handshake, or with an error. *)
Inductive handshake : Type :=
| next_user (user : value)
| next_error (message : string).

Section Authentication.

(** [password => hash('SHA-256', password + HASH_SALT)]; [hash] is
    imported from [../utils] and the salt from [../constants]. *)
Variable salted_hash : value → value.

Definition wrapped_user (user : value) (password : value) : value :=
  VObj (Object_assign [("token", salted_hash password)] user).

(** [createWrappedUsers()], lines 101-106, over the array of users the
    database holds. *)
Fixpoint createWrappedUsers (users : list value) : completion (list value) :=
  match users with
  | [] => Normal []
  | user :: users' =>
      let* password := get_property user "password" in
      let* wrapped := createWrappedUsers users' in
      Normal (wrapped_user user password :: wrapped)
  end.

(** The middleware of [io.use], lines 118-128. *)
Definition authentication (users : list value) (token : value) : completion handshake :=
  let* wrapped := createWrappedUsers users in
  let* user := find_token wrapped token in
  match user with
  | Some user => Normal (next_user user)
  | None => Normal (next_error "authentication error")
  end.

(** The handler of [/verify], lines 134-140. *)
Definition verify (users : list value) (token : value) : completion answer :=
  let* wrapped := createWrappedUsers users in
  let* user := find_token wrapped token in
  match user with
  | Some _ => Normal (ctx_status 200)
  | None => Normal (ctx_throw 403)
  end.

End Authentication.

(** ** Vocabulary of the properties *)

(** *** Worker messages *)

(** The message [{ type, payload }] a worker emits. *)
Definition reply (type : string) (payload : value) : value :=
  VObj [("type", VStr type); ("payload", payload)].

(** The [type] of a message that is an object with a string [type]. *)
Definition message_type (message : value) : option string :=
  match message with
  | VObj o =>
      match own_property "type" o with
      | Some (VStr t) => Some t
      | _ => None
      end
  | _ => None
  end.

Definition message_payload (message : value) : value :=
  match message with
  | VObj o => default VUndefined (own_property "payload" o)
  | _ => VUndefined
  end.

Definition well_formed (message : value) : Prop := is_Some (message_type message).

(** The matching rule in the words of the specification: a message answers
    a request of type [method] iff its type is [method/done] (success) or
    [method/error] (failure).  It is compared with [scanQueue] below. *)
Definition claimed_by (method : string) (message : value) : option settlement :=
  match message_type message with
  | Some t =>
      if decide (t = method +:+ "/done") then Some (Resolve (message_payload message))
      else if decide (t = method +:+ "/error") then
        Some (Reject (Error (message_payload message)))
      else None
  | None => None
  end.

(** Message [i] is the first of the queue that answers [method], with [s]. *)
Definition first_claimed (method : string) (queue : list value) (i : nat)
    (s : settlement) : Prop :=
  (∃ message, queue !! i = Some message ∧ claimed_by method message = Some s) ∧
  ∀ j message, j < i → queue !! j = Some message → claimed_by method message = None.

(** A worker whose queue holds well-formed messages, none for [method]. *)
Definition quiet (method : string) (w : worker) : Prop :=
  Forall well_formed (messageQueue w) ∧
  Forall (λ m, claimed_by method m = None) (messageQueue w).

Definition queues (σ : state) : list (list value) := messageQueue <$> workers σ.

Definition flags (σ : state) : list bool := killed <$> workers σ.

(** *** Registry entries *)

(** The three states of a service id: never inserted, present with
    [null], present with a handle. *)
Inductive entry : Type :=
| absent
| tombstoned
| active (sub : nat).

Definition entry_of (σ : state) (id : string) : entry :=
  match Map_get (subprocesses σ) id with
  | None => absent
  | Some None => tombstoned
  | Some (Some sub) => active sub
  end.

(** The error of [stop], line 103. *)
Definition not_found (id : string) : error :=
  Error (VStr ("service(" +:+ id +:+ ") is not found")).

(** The [switch] of [getMetrics], lines 137-150, as a table. *)
Definition metric_methods : list (string * string) :=
  [("cpu", "getCPUMetrics"); ("memory", "getMemoryMetrics"); ("speed", "getSpeedMetrics");
   ("connections", "getConnectionsMetrics"); ("traffic", "getTrafficMetrics")].

(** *** Runs in which every call is awaited *)

(** A registry call is issued only when no request is outstanding. *)
Definition awaited (σ : state) (e : event) : Prop :=
  match e with
  | ECall _ => outstanding σ = []
  | _ => True
  end.

Fixpoint all_awaited `{K : constants} (σ : state) (es : list event) : Prop :=
  match es with
  | [] => True
  | e :: es' => awaited σ e ∧ all_awaited (step σ e).1 es'
  end.

Inductive sequential `{K : constants} : state → Prop :=
| sequential_initial : sequential initial
| sequential_step σ e : sequential σ → awaited σ e → sequential (step σ e).1.

(** How the entry of [id] may change in one turn of the loop, with the
    event and the response of that turn. *)
Inductive transition (id : string) : entry → event → response → entry → Prop :=
| stays e ev r : transition id e ev r e
| started config sub :
    transition id absent (ECall (Start id config)) Pending (active sub)
| restarted config sub :
    transition id tombstoned (ECall (Start id config)) Pending (active sub)
| stopped sub :
    transition id (active sub) (ETurn 0) (Settled (Resolved VUndefined)) tombstoned
| start_failed sub err :
    transition id (active sub) (ETurn 0) (Settled (Rejected err)) absent.

(** What the frames of an outstanding request rely on. *)
Definition request_ok (σ : state) (req : request) : Prop :=
  match request_then req with
  | [start_catch id] => entry_of σ id = active (request_sub req)
  | [stop_then id sub] => sub = request_sub req ∧ entry_of σ id = active sub
  | [] | [getServiceInfo_then] | [getServiceInfo_then; getServices_then _ _ _] => True
  | _ => False
  end.

Record registry_ok (σ : state) : Prop := RegistryOk {
  registry_keys : NoDup (Map_keys (subprocesses σ));
  registry_live : ∀ id sub, entry_of σ id = active sub → flags σ !! sub = Some false;
  registry_inj : ∀ id id' sub,
    entry_of σ id = active sub → entry_of σ id' = active sub → id = id'
}.

Definition requests_ok (σ : state) : Prop :=
  outstanding σ = [] ∨ ∃ req, outstanding σ = [req] ∧ request_ok σ req.

Definition invariant (σ : state) : Prop := registry_ok σ ∧ requests_ok σ.

(** *** [getServices] *)

Definition no_call (e : event) : Prop :=
  match e with
  | ECall _ => False
  | _ => True
  end.

(** A key that is neither an array index nor [__proto__]. *)
Definition plain_key (k : string) : Prop := array_index k = None ∧ k ≠ "__proto__".

(** [services[id] = info] for the ids and infos in turn. *)
Definition assign (services : object) (ids : list string) (infos : list value) : object :=
  fold_left (λ o kv, set_property kv.1 kv.2 o) (zip ids infos) services.

(** The info [getServiceInfo] yields for an id of the map [m]. *)
Definition info_for `{K : constants} (m : Map (option nat)) (id : string) (info : value)
  : Prop :=
  match Map_get m id with
  | None => False
  | Some None => info = VObj [("status", SERVICE_STATUS_STOPPED)]
  | Some (Some _) =>
      ∃ payload, info = VObj (spread [("status", SERVICE_STATUS_RUNNING)] payload)
  end.

(** [getServices] waits for the status of [id], the entries of [pre] done. *)
Definition looping `{K : constants} (m : Map (option nat)) (σ : state) : Prop :=
  subprocesses σ = m ∧
  ∃ pre id sub post infos,
    m = pre ++ Some (id, Some sub) :: post ∧
    Forall2 (info_for m) (Map_keys pre) infos ∧
    outstanding σ =
    [Request sub "getStatus"
       [getServiceInfo_then;
        getServices_then (assign [] (Map_keys pre) infos) id (S (length pre))]].

Definition active_handles (entries : Map (option nat)) : list nat :=
  omap (λ e, match e with Some (_, Some sub) => Some sub | _ => None end) entries.

(** Every running worker answers [getStatus] in turn with its payload. *)
Fixpoint status_replies (entries : Map (option nat)) (payloads : list value) : list event :=
  match entries, payloads with
  | Some (_, Some sub) :: entries', payload :: payloads' =>
      EMessage sub (reply "getStatus/done" payload) :: ETurn 0
        :: status_replies entries' payloads'
  | Some (_, Some _) :: _, [] => []
  | _ :: entries', _ => status_replies entries' payloads
  | [], _ => []
  end.

Fixpoint status_infos `{K : constants} (entries : Map (option nat)) (payloads : list value)
  : list value :=
  match entries, payloads with
  | Some (_, Some _) :: entries', payload :: payloads' =>
      VObj (spread [("status", SERVICE_STATUS_RUNNING)] payload)
        :: status_infos entries' payloads'
  | Some (_, Some _) :: _, [] => []
  | Some (_, None) :: entries', _ =>
      VObj [("status", SERVICE_STATUS_STOPPED)] :: status_infos entries' payloads
  | None :: entries', _ => status_infos entries' payloads
  | [], _ => []
  end.

(** [await], resumed after a first turn. *)
Definition resolves `{K : constants} (σr : state * response) (es : list event)
  : state * response :=
  match σr.2 with
  | Pending => await σr.1 es
  | _ => σr
  end.

(** *** Processes and requests along a run *)

(** The number of processes an event forks: one, for a start of an id
    that holds no handle. *)
Definition forks (σ : state) (e : event) : nat :=
  match e with
  | ECall (Start id _) =>
      match entry_of σ id with
      | active _ => 0
      | _ => 1
      end
  | _ => 0
  end.

(** The frames of the calls that only ask. *)
Definition query_frame (f : frame) : Prop :=
  match f with
  | getServiceInfo_then | getServices_then _ _ _ => True
  | _ => False
  end.

Definition is_start (c : call) : Prop :=
  match c with
  | Start _ _ => True
  | _ => False
  end.

(** The processes forked along a run. *)
Fixpoint forked `{K : constants} (σ : state) (es : list event) : nat :=
  match es with
  | [] => 0
  | e :: es' => forks σ e + forked (step σ e).1 es'
  end.

(** The requests written to each worker. *)
Definition sents (σ : state) : list (list action) := sent <$> workers σ.

(** Every outstanding request waits on a handle the map holds. *)
Definition targets_live (σ : state) : Prop :=
  ∀ req, req ∈ outstanding σ → ∃ id, entry_of σ id = active (request_sub req).

(** A message [scanQueue] can read: an object whose [type] has an
    [indexOf], that is a string or an array. *)
Definition readable (message : value) : Prop :=
  match message with
  | VObj o =>
      match own_property "type" o with
      | Some (VStr _) | Some (VArr _) => True
      | _ => False
      end
  | _ => False
  end.

(** The worker [sub] of [σ] holds [message] in its queue. *)
Definition queued (σ : state) (sub : nat) (message : value) : Prop :=
  ∃ queue, queues σ !! sub = Some queue ∧ message ∈ queue.

(** An event that brings no reply to the request [req]. *)
Definition unanswered (req : request) (e : event) : Prop :=
  match e with
  | ECall _ => False
  | EMessage sub message =>
      sub = request_sub req → typeof message = "object" →
      well_formed message ∧ claimed_by (request_type req) message = None
  | ETurn _ => True
  end.

(** A forked process that no id of the map refers to. *)
Definition orphaned (σ : state) (sub : nat) : Prop :=
  sub < length (workers σ) ∧ ∀ id, entry_of σ id ≠ active sub.

(** The frames of [k] kill no process but [sub]'s. *)
Definition spares (sub : nat) (f : frame) : Prop :=
  match f with
  | stop_then _ sub' => sub' ≠ sub
  | _ => True
  end.

(** The messages of the events [es] that the listener of worker [sub]
    queues, in the order of their arrival. *)
Fixpoint arrivals (sub : nat) (es : list event) : list value :=
  match es with
  | [] => []
  | EMessage sub' message :: es' =>
      (if decide (sub' = sub) then on_message [] message else []) ++ arrivals sub es'
  | _ :: es' => arrivals sub es'
  end.

(** The queue of worker [sub], empty before the worker is forked. *)
Definition queue_of (σ : state) (sub : nat) : list value :=
  default [] (queues σ !! sub).

(** *** The server *)

(** [name] is the first, in the order of the code units, of the files of
    service [id] in the listing. *)
Definition first_log (id : string) (files : list string) (name : string) : Prop :=
  name ∈ files ∧ String.prefix (id +:+ ".log") name = true ∧
  ∀ name', name' ∈ files → String.prefix (id +:+ ".log") name' = true →
           code_unit_le name name'.

(** The token of a user record: the [token] the record itself holds,
    if any, and the salted hash of its password otherwise. *)
Definition token_of (salted_hash : value → value) (user : value) (password : value)
  : value :=
  default (salted_hash password) (own_property "token" (reverse (own_properties user))).

(** ** Concrete runs *)

Module Scenario.

(** Sample values for the imported constants; any three values do. *)
Definition sample : constants := Constants (VNum (-1)) (VNum 0) (VNum 1).

#[local] Existing Instance sample.

Definition config : value := VObj [("port", VNum 1080)].

Definition start_ok (id : string) (sub : nat) : list event :=
  [ECall (Start id config); EMessage sub (reply "start/done" VUndefined); ETurn 0].

Definition stop_ok (id : string) (sub : nat) : list event :=
  [ECall (Stop id); EMessage sub (reply "stop/done" VUndefined); ETurn 0].

Definition start_refused (id : string) (sub : nat) : list event :=
  [ECall (Start id config); EMessage sub (reply "start/error" (VStr "EADDRINUSE"))].

Definition stop_refused (id : string) (sub : nat) : list event :=
  [ECall (Stop id); EMessage sub (reply "stop/error" (VStr "busy"))].

(** [svc1] runs. *)
Definition running : state := run initial (start_ok "svc1" 0).

(** [svc1] was started and stopped. *)
Definition stopped : state := run running (stop_ok "svc1" 0).

(** [svc1] is being started; its worker has answered [start/error]. *)
Definition refusing : state := run initial (start_refused "svc1" 0).


(** [svc1] runs and has answered [stop/error] to a stop request. *)
Definition stop_refusing : state := run running (stop_refused "svc1" 0).

(** [svc1] runs and has answered [stop/done] to a stop request. *)
Definition stopping : state :=
  run running [ECall (Stop "svc1"); EMessage 0 (reply "stop/done" VUndefined)].

(** [svc1] runs; [svc2] was started after it and stopped. *)
Definition mixed : state :=
  run initial (start_ok "svc1" 0 ++ start_ok "svc2" 1 ++ stop_ok "svc2" 1).

(** Services ["10"] and ["9"] run, started in this order. *)
Definition numbered : state := run initial (start_ok "10" 0 ++ start_ok "9" 1).

(** A service called [__proto__] runs. *)
Definition proto : state := run initial (start_ok "__proto__" 0).


(** Two [start] requests wait on the worker of [svc1], which has answered
    once. *)
Definition contended : state :=
  run running [ECall (Start "svc1" config); ECall (Start "svc1" config);
               EMessage 0 (reply "start/done" VUndefined)].


(** [svc1] is being started; its worker has not answered. *)
Definition starting : state := run initial [ECall (Start "svc1" config)].

(** [svc1] is being started; its worker has sent an object without a
    [type]. *)
Definition poisoned : state := run starting [EMessage 0 (VObj [])].

(** The id of a service, and a listing of the log directory with its
    current log, a rotated log and the log of another service. *)
Definition log_id : string := "3f2a9b1c-7d4e-4a6b-8c9d-0e1f2a3b4c5d".

Definition listing : list string :=
  [log_id +:+ ".log.1"; "7e57ab1e-0000-4000-8000-000000000000.log"; log_id +:+ ".log"].

Definition log_path (name : string) : string := "/var/log/blinksocks/" +:+ name.

(** A stand-in for the salted hash, and two user records, the second
    with a [token] of its own. *)
Definition sample_hash (password : value) : value :=
  match password with
  | VStr s => VStr ("sha256:" +:+ s)
  | _ => VStr "sha256:"
  end.

Definition users : list value :=
  [VObj [("name", VStr "root"); ("password", VStr "secret")];
   VObj [("name", VStr "guest"); ("password", VStr "guest"); ("token", VStr "letmein")]].

Definition wrapped : list value :=
  [VObj [("token", VStr "sha256:secret"); ("name", VStr "root");
         ("password", VStr "secret")];
   VObj [("token", VStr "letmein"); ("name", VStr "guest"); ("password", VStr "guest")]].

End Scenario.

(** ** Tactics *)

(** An equivalence of two equations that both hold or both fail by
    their constructors. *)
Ltac trivial_iff :=
  intros; split; first [done | by intros [? ?] | by eexists | by intros [= ->]].

(** ** Facts about the map *)

Section MapFacts.
Context {V : Type}.
Implicit Types (m : Map V) (k : string) (v : V).

Lemma Map_get_set_eq m k v : Map_get (Map_set m k v) k = Some v.
Proof.
  induction m as [|[[k' v']|] m IH]; simpl; repeat case_decide; simpl;
    repeat case_decide; try done.
Qed.

Lemma Map_get_set_ne m k k' v : k ≠ k' → Map_get (Map_set m k v) k' = Map_get m k'.
Proof.
  intros Hne. induction m as [|[[k0 v0]|] m IH]; simpl; repeat case_decide; simpl;
    repeat case_decide; simplify_eq; try done.
Qed.

Lemma Map_get_delete_ne m k k' : k ≠ k' → Map_get (Map_delete m k) k' = Map_get m k'.
Proof.
  intros Hne. induction m as [|[[k0 v0]|] m IH]; simpl; repeat case_decide; simpl;
    repeat case_decide; simplify_eq; try done.
Qed.

Lemma Map_get_None m k : Map_get m k = None ↔ k ∉ Map_keys m.
Proof.
  unfold Map_keys. induction m as [|[[k0 v0]|] m IH]; csimpl.
  - split; [intros _; apply not_elem_of_nil | done].
  - destruct (decide (k0 = k)) as [->|Hne].
    + split; [done | intros []; apply list_elem_of_here].
    + rewrite not_elem_of_cons. split; [intros ?%IH; by split | intros []; by apply IH].
  - done.
Qed.

Lemma Map_get_delete_eq m k : NoDup (Map_keys m) → Map_get (Map_delete m k) k = None.
Proof.
  unfold Map_keys. induction m as [|[[k0 v0]|] m IH]; csimpl; [done| |done].
  intros [Hk0 Hm]%NoDup_cons. case_decide; simplify_eq/=.
  - by apply Map_get_None.
  - case_decide; [done | auto].
Qed.

Lemma Map_keys_set m k v :
  Map_keys (Map_set m k v) =
  if decide (k ∈ Map_keys m) then Map_keys m else Map_keys m ++ [k].
Proof.
  unfold Map_keys. induction m as [|[[k0 v0]|] m IH]; csimpl.
  - done.
  - destruct (decide (k0 = k)) as [->|Hne]; csimpl.
    + by rewrite decide_True by apply list_elem_of_here.
    + rewrite IH. destruct (decide (k ∈ omap (fmap fst) m)) as [Hin|Hin].
      * by rewrite decide_True by (by apply list_elem_of_further).
      * rewrite decide_False; [done|]. by intros [|]%elem_of_cons.
  - done.
Qed.

Lemma Map_keys_delete_sublist m k : Map_keys (Map_delete m k) `sublist_of` Map_keys m.
Proof.
  unfold Map_keys. induction m as [|[[k0 v0]|] m IH]; csimpl; [done| |done].
  case_decide; csimpl; [by apply sublist_cons | by apply sublist_skip].
Qed.

Lemma Map_set_NoDup m k v : NoDup (Map_keys m) → NoDup (Map_keys (Map_set m k v)).
Proof.
  intros Hm. rewrite Map_keys_set. case_decide; [done|].
  apply NoDup_app. split_and!; [done| |apply NoDup_singleton].
  intros x Hx ->%list_elem_of_singleton. done.
Qed.

Lemma Map_delete_NoDup m k : NoDup (Map_keys m) → NoDup (Map_keys (Map_delete m k)).
Proof. intros Hm. eapply sublist_NoDup; [done | apply Map_keys_delete_sublist]. Qed.

End MapFacts.

Section Properties.

Context `{K : constants}.

(** ** Strings *)

Lemma prefix_app (s t : string) : String.prefix s (s +:+ t) = true.
Proof.
  induction s as [|c s IH]; simpl; [by destruct t|].
  destruct (ascii_dec c c); [done | congruence].
Qed.

Lemma indexOf_from_unfold (k : nat) (s t : string) :
  indexOf_from k s t =
  if String.prefix t s then Z.of_nat k
  else match s with
       | EmptyString => (-1)%Z
       | String _ s' => indexOf_from (S k) s' t
       end.
Proof. by destruct s. Qed.

Lemma indexOf_from_range (k : nat) (s t : string) :
  indexOf_from k s t = (-1)%Z ∨ (Z.of_nat k ≤ indexOf_from k s t)%Z.
Proof.
  revert k; induction s as [|c s IH]; intros k; rewrite indexOf_from_unfold.
  - destruct (String.prefix t ""); [right; lia | by left].
  - destruct (String.prefix t (String c s)); [right; lia|].
    destruct (IH (S k)) as [->| ?]; [by left | right; lia].
Qed.

Lemma indexOf_zero (s t : string) : indexOf s t = 0%Z ↔ String.prefix t s = true.
Proof.
  unfold indexOf. rewrite indexOf_from_unfold.
  destruct (String.prefix t s); [done|]. split; [|done].
  destruct s as [|c s]; [done|].
  destruct (indexOf_from_range 1 s t) as [->| ?]; [done | lia].
Qed.

Lemma app_inj_l (s t u : string) : s +:+ t = s +:+ u → t = u.
Proof. induction s; simpl; [done | intros [= ?]; auto]. Qed.

Lemma done_not_error (method : string) : method +:+ "/done" ≠ method +:+ "/error".
Proof. intros E%app_inj_l. discriminate. Qed.

(** ** Objects *)

Lemma own_property_app k (o1 o2 : object) :
  own_property k (o1 ++ o2) =
  match own_property k o1 with Some v => Some v | None => own_property k o2 end.
Proof.
  induction o1 as [|[k' v'] o1 IH]; simpl; [done|]. by case_decide.
Qed.

Lemma own_property_None k (o : object) : own_property k o = None ↔ k ∉ o.*1.
Proof.
  induction o as [|[k' v'] o IH]; csimpl.
  - split; [intros _; apply not_elem_of_nil | done].
  - destruct (decide (k' = k)) as [->|Hne].
    + split; [done | intros []; apply list_elem_of_here].
    + rewrite not_elem_of_cons. split; [intros ?%IH; by split | intros []; by apply IH].
Qed.

Lemma own_property_replace_eq k v (o : object) :
  is_Some (own_property k o) → own_property k (replace_property k v o) = Some v.
Proof.
  induction o as [|[k' v'] o IH]; simpl; [by intros [? [=]]|].
  destruct (decide (k' = k)) as [->|Hne]; simpl.
  - by rewrite decide_True.
  - rewrite decide_False by done. done.
Qed.

Lemma own_property_replace_ne k k' v (o : object) :
  k ≠ k' → own_property k (replace_property k' v o) = own_property k o.
Proof.
  intros Hne. induction o as [|[k0 v0] o IH]; simpl; [done|].
  destruct (decide (k0 = k')) as [->|Hne']; simpl.
  - by rewrite !decide_False.
  - by rewrite IH.
Qed.

Lemma own_property_insert_index_eq k n v (o : object) :
  own_property k o = None → own_property k (insert_index n k v o) = Some v.
Proof.
  induction o as [|[k0 v0] o IH]; simpl; [by rewrite decide_True|].
  destruct (decide (k0 = k)) as [->|Hne]; [done|]. intros Ho.
  destruct (array_index k0) as [n0|]; [|by simpl; rewrite decide_True].
  case_decide; simpl; [by rewrite decide_True|]. rewrite decide_False by done. auto.
Qed.

Lemma own_property_insert_index_ne k n k' v (o : object) :
  k ≠ k' → own_property k (insert_index n k' v o) = own_property k o.
Proof.
  intros Hne. induction o as [|[k0 v0] o IH]; simpl; [by rewrite decide_False|].
  destruct (array_index k0) as [n0|]; [|by simpl; rewrite (decide_False (P := k' = k))].
  case_decide; simpl; [by rewrite (decide_False (P := k' = k))|]. by rewrite IH.
Qed.

Lemma own_property_define_eq k v (o : object) :
  own_property k (define_property k v o) = Some v.
Proof.
  unfold define_property. destruct (own_property k o) as [v'|] eqn:Ho.
  - apply own_property_replace_eq. by rewrite Ho.
  - destruct (array_index k) as [n|].
    + by apply own_property_insert_index_eq.
    + rewrite own_property_app, Ho. simpl. by rewrite decide_True.
Qed.

Lemma own_property_define_ne k k' v (o : object) :
  k ≠ k' → own_property k (define_property k' v o) = own_property k o.
Proof.
  intros Hne. unfold define_property. destruct (own_property k' o) as [v'|] eqn:Ho.
  - by apply own_property_replace_ne.
  - destruct (array_index k') as [n|].
    + by apply own_property_insert_index_ne.
    + rewrite own_property_app. simpl. rewrite decide_False by done.
      by destruct (own_property k o).
Qed.

Lemma own_property_spread k (l base : object) :
  own_property k (fold_left (λ o kv, define_property kv.1 kv.2 o) l base) =
  match own_property k (reverse l) with
  | Some v => Some v
  | None => own_property k base
  end.
Proof.
  revert base; induction l as [|[k' v'] l IH]; intros base; simpl; [done|].
  rewrite IH, reverse_cons, own_property_app. simpl.
  destruct (own_property k (reverse l)); [done|].
  destruct (decide (k' = k)) as [->|Hne].
  - apply own_property_define_eq.
  - by apply own_property_define_ne.
Qed.

Lemma own_property_set_eq k v (o : object) :
  k ≠ "__proto__" → own_property k (set_property k v o) = Some v.
Proof.
  intros Hk. unfold set_property. rewrite decide_False by done.
  apply own_property_define_eq.
Qed.

Lemma own_property_set_ne k k' v (o : object) :
  k ≠ k' → own_property k (set_property k' v o) = own_property k o.
Proof.
  intros Hne. unfold set_property. case_decide; [done|].
  by apply own_property_define_ne.
Qed.

Lemma set_property_keys k v (o : object) :
  plain_key k → own_property k o = None → (set_property k v o).*1 = o.*1 ++ [k].
Proof.
  intros [Hindex Hproto] Ho. unfold set_property, define_property.
  rewrite decide_False, Ho, Hindex by done. by rewrite fmap_app.
Qed.

Lemma assign_cons services id ids info infos :
  assign services (id :: ids) (info :: infos) =
  assign (set_property id info services) ids infos.
Proof. done. Qed.

Lemma assign_app services ids1 infos1 ids2 infos2 :
  length ids1 = length infos1 →
  assign services (ids1 ++ ids2) (infos1 ++ infos2) =
  assign (assign services ids1 infos1) ids2 infos2.
Proof.
  intros Hlen. unfold assign. by rewrite zip_with_app, fold_left_app.
Qed.

Lemma assign_other services ids infos id :
  id ∉ ids → own_property id (assign services ids infos) = own_property id services.
Proof.
  revert services infos; induction ids as [|id0 ids IH]; intros services infos Hid;
    [done|].
  apply not_elem_of_cons in Hid as [Hne Hid]. destruct infos as [|info infos]; [done|].
  rewrite assign_cons, IH by done. by apply own_property_set_ne.
Qed.

Lemma assign_lookup services ids infos i id info :
  NoDup ids → id ≠ "__proto__" → ids !! i = Some id → infos !! i = Some info →
  own_property id (assign services ids infos) = Some info.
Proof.
  revert services infos i; induction ids as [|id0 ids IH];
    intros services infos i Hnd Hproto Hid Hinfo; [done|].
  apply NoDup_cons in Hnd as [Hid0 Hnd]. destruct infos as [|info0 infos]; [done|].
  rewrite assign_cons. destruct i as [|i]; simplify_eq/=.
  - rewrite assign_other by done. by apply own_property_set_eq.
  - by apply (IH _ _ i).
Qed.

Lemma assign_keys services ids infos :
  length ids = length infos → NoDup (services.*1 ++ ids) → Forall plain_key ids →
  (assign services ids infos).*1 = services.*1 ++ ids.
Proof.
  revert services infos; induction ids as [|id ids IH];
    intros services infos Hlen Hnd Hplain.
  - by rewrite app_nil_r.
  - destruct infos as [|info infos]; [done|]. rewrite assign_cons.
    apply Forall_cons in Hplain as [Hid Hplain].
    assert (own_property id services = None) as Hfresh.
    { apply own_property_None. apply NoDup_app in Hnd as (_ & Hdisj & _).
      intros Hin. apply (Hdisj _ Hin), list_elem_of_here. }
    pose proof (set_property_keys id info services Hid Hfresh) as Hkeys.
    rewrite IH; [by rewrite Hkeys, <- app_assoc| |by rewrite Hkeys, <- app_assoc|done].
    simpl in Hlen. lia.
Qed.

(** ** The scan of the queue *)

Lemma claimed_by_reply_done method payload :
  claimed_by method (reply (method +:+ "/done") payload) = Some (Resolve payload).
Proof. unfold claimed_by; simpl. by rewrite decide_True. Qed.

Lemma claimed_by_well_formed method message s :
  claimed_by method message = Some s → well_formed message.
Proof. unfold claimed_by, well_formed. by destruct (message_type message). Qed.

Lemma claimed_by_inv method message s :
  claimed_by method message = Some s →
  (message_type message = Some (method +:+ "/done") ∧ s = Resolve (message_payload message)) ∨
  (message_type message = Some (method +:+ "/error") ∧
   s = Reject (Error (message_payload message))).
Proof.
  unfold claimed_by. destruct (message_type message) as [t|]; [|done].
  repeat case_decide; intros [= <-]; subst; auto.
Qed.

(** One message at the head of the queue. *)
Lemma scanQueue_from_cons k message rest method r :
  scanQueue_from k (message :: rest) method = Normal r →
  match claimed_by method message with
  | Some s => r = Found k s
  | None => scanQueue_from (S k) rest method = Normal r
  end.
Proof.
  unfold claimed_by, message_type, message_payload. simpl.
  destruct message as [| | | | |l|o]; simpl; try done.
  destruct (own_property "type" o) as [[| | | |t|l|o']|] eqn:Ht; simpl; try done.
  - unfold strict_equals_string.
    destruct (decide (t = method +:+ "/done")) as [->|Hd].
    + rewrite bool_decide_eq_true_2 by (apply indexOf_zero, prefix_app).
      rewrite (bool_decide_eq_false_2 _ (done_not_error method)).
      rewrite bool_decide_eq_true_2 by done. by intros [= <-].
    + destruct (decide (t = method +:+ "/error")) as [->|He].
      { rewrite bool_decide_eq_true_2 by (apply indexOf_zero, prefix_app).
        rewrite bool_decide_eq_true_2 by done. by intros [= <-]. }
      rewrite (bool_decide_eq_false_2 _ He), (bool_decide_eq_false_2 _ Hd).
      by destruct (bool_decide _).
  - by destruct (bool_decide _).
Qed.

Lemma scanQueue_from_cons_wf k message rest method t :
  message_type message = Some t →
  scanQueue_from k (message :: rest) method =
  match claimed_by method message with
  | Some s => Normal (Found k s)
  | None => scanQueue_from (S k) rest method
  end.
Proof.
  unfold claimed_by, message_type, message_payload. simpl.
  destruct message as [| | | | |l|o]; simpl; try done.
  destruct (own_property "type" o) as [[| | | |t'|l|o']|] eqn:Ht; simpl; try done.
  intros [= ->]. unfold strict_equals_string.
  destruct (decide (t = method +:+ "/done")) as [->|Hd].
  - rewrite bool_decide_eq_true_2 by (apply indexOf_zero, prefix_app).
    rewrite (bool_decide_eq_false_2 _ (done_not_error method)).
    by rewrite bool_decide_eq_true_2 by done.
  - destruct (decide (t = method +:+ "/error")) as [->|He].
    { rewrite bool_decide_eq_true_2 by (apply indexOf_zero, prefix_app).
      by rewrite bool_decide_eq_true_2 by done. }
    rewrite (bool_decide_eq_false_2 _ He), (bool_decide_eq_false_2 _ Hd).
    by destruct (bool_decide _).
Qed.

Lemma first_claimed_head method message rest s :
  claimed_by method message = Some s → first_claimed method (message :: rest) 0 s.
Proof. intros Hc. split; [by exists message | intros j ? Hj; lia]. Qed.

Lemma first_claimed_tail method message rest i s :
  claimed_by method message = None →
  first_claimed method rest i s ↔ first_claimed method (message :: rest) (S i) s.
Proof.
  intros Hc. split.
  - intros [Hi Hlt]. split; [done|].
    intros [|j] m' Hj Hm'; simplify_eq/=; [done|]. apply (Hlt j); [lia | done].
  - intros [Hi Hlt]. split; [done|].
    intros j m' Hj Hm'. apply (Hlt (S j)); [lia | done].
Qed.

Lemma first_claimed_unique method queue i s i' s' :
  first_claimed method queue i s → first_claimed method queue i' s' → i = i' ∧ s = s'.
Proof.
  intros [(m & Hm & Hc) Hlt] [(m' & Hm' & Hc') Hlt'].
  destruct (Nat.lt_trichotomy i i') as [Hlt0|[->|Hlt0]].
  - rewrite (Hlt' _ _ Hlt0 Hm) in Hc. done.
  - simplify_eq. done.
  - rewrite (Hlt _ _ Hlt0 Hm') in Hc'. done.
Qed.

Lemma scanQueue_from_found k queue method i s :
  scanQueue_from k queue method = Normal (Found i s) →
  ∃ j, i = k + j ∧ first_claimed method queue j s.
Proof.
  revert k; induction queue as [|message rest IH]; intros k Hs; [done|].
  apply scanQueue_from_cons in Hs.
  destruct (claimed_by method message) as [s'|] eqn:Hc.
  - injection Hs as <- <-. exists 0. split; [lia|]. by apply first_claimed_head.
  - destruct (IH _ Hs) as (j & -> & Hj). exists (S j). split; [lia|].
    by apply first_claimed_tail.
Qed.

Lemma scanQueue_from_well_formed k queue method :
  Forall well_formed queue →
  (∃ j s, first_claimed method queue j s ∧
          scanQueue_from k queue method = Normal (Found (k + j) s)) ∨
  (Forall (λ message, claimed_by method message = None) queue ∧
   scanQueue_from k queue method = Normal NotFound).
Proof.
  intros Hwf. revert k. induction Hwf as [|message rest [t Ht] _ IH]; intros k.
  - right. by split.
  - rewrite (scanQueue_from_cons_wf _ _ _ _ _ Ht).
    destruct (claimed_by method message) as [s|] eqn:Hc.
    + left. exists 0, s. rewrite Nat.add_0_r. split; [by apply first_claimed_head | done].
    + destruct (IH (S k)) as [(j & s & Hj & ->)|[Hall ->]].
      * left. exists (S j), s. split; [by apply first_claimed_tail|].
        do 2 f_equal. lia.
      * right. split; [by constructor | done].
Qed.

Lemma scanQueue_found_iff queue method i s :
  Forall well_formed queue →
  scanQueue queue method = Normal (Found i s) ↔ first_claimed method queue i s.
Proof.
  intros Hwf. unfold scanQueue. split.
  - intros (j & -> & Hj)%scanQueue_from_found. done.
  - intros Hf. destruct (scanQueue_from_well_formed 0 queue method Hwf)
      as [(j & s' & Hj & ->)|[Hall _]].
    + destruct (first_claimed_unique _ _ _ _ _ _ Hf Hj) as [-> ->]. done.
    + destruct Hf as [(m & Hm & Hc) _].
      rewrite Forall_lookup in Hall. rewrite (Hall _ _ Hm) in Hc. done.
Qed.

Lemma consume_inv queue method q' o :
  consume queue method = Normal (q', o) →
  match o with
  | Some s => ∃ i, scanQueue queue method = Normal (Found i s) ∧ q' = delete i queue
  | None => scanQueue queue method = Normal NotFound ∧ q' = queue
  end.
Proof.
  unfold consume. destruct (scanQueue queue method) as [[i s|]|e]; simpl; [| |done].
  - intros [= <- <-]. eauto.
  - by intros [= <- <-].
Qed.

(** The reply that arrives behind a queue holding nothing for [method]. *)
Lemma consume_snoc queue method message s :
  Forall well_formed queue →
  Forall (λ m, claimed_by method m = None) queue →
  claimed_by method message = Some s →
  consume (queue ++ [message]) method = Normal (queue, Some s).
Proof.
  intros Hwf Hnone Hc. unfold consume.
  assert (scanQueue (queue ++ [message]) method = Normal (Found (length queue) s)) as ->.
  { apply scanQueue_found_iff.
    - apply Forall_app. split; [done|]. repeat constructor.
      by eapply claimed_by_well_formed.
    - split.
      + exists message. split; [by apply list_lookup_middle | done].
      + intros j m' Hj Hm'. rewrite lookup_app_l in Hm' by done.
        rewrite Forall_lookup in Hnone. eauto. }
  simpl. by rewrite delete_middle, app_nil_r.
Qed.


(** ** One turn of the loop *)

Lemma alter_same_queue (g : worker → worker) i (l : list worker) :
  (∀ w, messageQueue (g w) = messageQueue w) →
  messageQueue <$> alter g i l = messageQueue <$> l.
Proof.
  intros Hg. revert i; induction l as [|w l IH]; intros [|i]; csimpl; try done.
  - by rewrite Hg.
  - by rewrite IH.
Qed.

Lemma alter_same_flag (g : worker → worker) i (l : list worker) :
  (∀ w, killed (g w) = killed w) → killed <$> alter g i l = killed <$> l.
Proof.
  intros Hg. revert i; induction l as [|w l IH]; intros [|i]; csimpl; try done.
  - by rewrite Hg.
  - by rewrite IH.
Qed.

Lemma kill_queues σ sub : queues (kill σ sub) = queues σ.
Proof. unfold queues, kill; simpl. by apply alter_same_queue. Qed.

Lemma invoke_queues σ sub method args k :
  queues (invoke σ sub method args k) = queues σ.
Proof. unfold queues, invoke; simpl. by apply alter_same_queue. Qed.

Lemma run_frame_queues f σ r : queues (run_frame f σ r).1 = queues σ.
Proof. destruct f, r; simpl; try done. apply kill_queues. Qed.

Lemma resume_queues k σ r : queues (resume k σ r).1 = queues σ.
Proof.
  revert σ r; induction k as [|f k IH]; intros σ r; simpl; [done|].
  pose proof (run_frame_queues f σ r) as Hf.
  destruct (run_frame f σ r) as [σ' [r'|sub method args k2]]; simpl in *.
  - by rewrite IH.
  - done.
Qed.

Lemma proceed_queues σ s : queues (proceed σ s).1 = queues σ.
Proof. destruct s; simpl; [done | apply invoke_queues]. Qed.

Lemma run_frame_outstanding f σ r : outstanding (run_frame f σ r).1 = outstanding σ.
Proof. by destruct f, r. Qed.

Lemma resume_outstanding k σ r : outstanding (resume k σ r).1 = outstanding σ.
Proof.
  revert σ r; induction k as [|f k IH]; intros σ r; simpl; [done|].
  pose proof (run_frame_outstanding f σ r) as Hf.
  destruct (run_frame f σ r) as [σ' [r'|sub method args k2]]; simpl in *.
  - by rewrite IH.
  - done.
Qed.

Lemma proceed_outstanding σ s :
  ∃ new, outstanding (proceed σ s).1 = outstanding σ ++ new.
Proof.
  destruct s; simpl; [exists []; by rewrite app_nil_r | eauto].
Qed.

Lemma invoke_flags σ sub method args k : flags (invoke σ sub method args k) = flags σ.
Proof. unfold flags, invoke; simpl. by apply alter_same_flag. Qed.

Lemma kill_flags_ne σ sub sub' : sub ≠ sub' → flags (kill σ sub) !! sub' = flags σ !! sub'.
Proof.
  intros Hne. unfold flags, kill; simpl.
  by rewrite !list_lookup_fmap, list_lookup_alter_ne.
Qed.

Lemma resume_last f σ r : resume [f] σ r = run_frame f σ r.
Proof.
  simpl. destruct (run_frame f σ r) as [σ' [r'|sub method args k]]; [done|].
  by rewrite app_nil_r.
Qed.

Lemma step_turn σ n req w q' s :
  outstanding σ !! n = Some req →
  workers σ !! request_sub req = Some w →
  consume (messageQueue w) (request_type req) = Normal (q', Some s) →
  step σ (ETurn n) =
  let '(σ', s') :=
    resume (request_then req)
      (State (subprocesses σ)
             (<[request_sub req := Worker q' (sent w) (killed w)]> (workers σ))
             (delete n (outstanding σ)))
      (settle s) in
  proceed σ' s'.
Proof. intros Hreq Hw Hc. simpl. by rewrite Hreq, Hw, Hc. Qed.

Lemma await_pending σ e es σ' :
  step σ e = (σ', Pending) → await σ (e :: es) = await σ' es.
Proof. intros He. simpl. by rewrite He. Qed.

Lemma await_last σ e : await σ [e] = step σ e.
Proof. simpl. by destruct (step σ e) as [σ' [r| |err]]. Qed.

Lemma await_cons σ e es : await σ (e :: es) = resolves (step σ e) es.
Proof. unfold resolves. simpl. by destruct (step σ e) as [σ' [r| |err]]. Qed.

(** The keys of the map stay distinct, whatever the events. *)
Lemma run_frame_keys f σ r :
  NoDup (Map_keys (subprocesses σ)) →
  NoDup (Map_keys (subprocesses (run_frame f σ r).1)).
Proof.
  intros Hm. destruct f, r; simpl; try done.
  - by apply Map_delete_NoDup.
  - by apply Map_set_NoDup.
Qed.

Lemma resume_keys k σ r :
  NoDup (Map_keys (subprocesses σ)) →
  NoDup (Map_keys (subprocesses (resume k σ r).1)).
Proof.
  revert σ r; induction k as [|f k IH]; intros σ r Hm; simpl; [done|].
  pose proof (run_frame_keys f σ r Hm) as Hf.
  destruct (run_frame f σ r) as [σ' [r'|sub method args k2]]; simpl in *; auto.
Qed.

Lemma step_keys σ e :
  NoDup (Map_keys (subprocesses σ)) →
  NoDup (Map_keys (subprocesses (step σ e).1)).
Proof.
  intros Hm.
  assert (∀ σ0 s, subprocesses (proceed σ0 s).1 = subprocesses σ0) as Hproceed
    by by intros σ0 [].
  destruct e as [c|sub message|n]; cbn [step].
  - destruct (enter σ c) as [σ' s] eqn:Hc. rewrite Hproceed.
    change σ' with (σ', s).1. rewrite <- Hc.
    destruct c; simpl; try done. unfold start.
    destruct (Map_get (subprocesses σ) id) as [[sub|]|]; simpl;
      [done | by apply Map_set_NoDup..].
  - done.
  - destruct (outstanding σ !! n) as [req|]; [|done].
    destruct (workers σ !! request_sub req) as [w|]; [|done].
    destruct (consume _ _) as [[queue [s|]]|err]; [|done..].
    destruct (resume _ _ _) as [σ' s'] eqn:Hr. rewrite Hproceed.
    change σ' with (σ', s').1. rewrite <- Hr. by apply resume_keys.
Qed.

Lemma run_keys es : NoDup (Map_keys (subprocesses (run initial es))).
Proof.
  assert (∀ σ, NoDup (Map_keys (subprocesses σ)) →
               NoDup (Map_keys (subprocesses (run σ es)))) as Hrun.
  { induction es as [|e es IH]; intros σ Hm; [done|]. by apply IH, step_keys. }
  apply Hrun. constructor.
Qed.

(** C8. A turn of [consume] that finds a reply finds the first message of
    the queue that answers the request, removes exactly that message (the
    others stay, in order), touches no other queue and ends only the
    request of this turn; a turn that finds none leaves everything as it
    was, the request still outstanding. *)
Theorem consume_removes_first_match σ n req w :
  outstanding σ !! n = Some req →
  workers σ !! request_sub req = Some w →
  (∀ q' s, consume (messageQueue w) (request_type req) = Normal (q', Some s) →
     ∃ i message,
       first_claimed (request_type req) (messageQueue w) i s ∧
       messageQueue w !! i = Some message ∧
       q' = delete i (messageQueue w) ∧
       messageQueue w ≡ₚ message :: q' ∧
       queues (step σ (ETurn n)).1 = <[request_sub req := q']> (queues σ) ∧
       ∃ new, outstanding (step σ (ETurn n)).1 = delete n (outstanding σ) ++ new) ∧
  (∀ q', consume (messageQueue w) (request_type req) = Normal (q', None) →
     q' = messageQueue w ∧ step σ (ETurn n) = (σ, Pending)).
Proof.
  intros Hreq Hw. split.
  - intros q' s Hc. pose proof Hc as (i & Hs & ->)%consume_inv.
    unfold scanQueue in Hs. apply scanQueue_from_found in Hs as (j & -> & Hj).
    simpl in *. pose proof Hj as [(message & Hm & _) _].
    exists j, message. split_and!; [done..|by apply delete_Permutation| |].
    + simpl. rewrite Hreq, Hw, Hc.
      destruct (resume _ _ _) as [σ' s'] eqn:Hr.
      rewrite proceed_queues. change σ' with (σ', s').1. rewrite <- Hr.
      rewrite resume_queues. unfold queues; simpl. by rewrite list_fmap_insert.
    + simpl. rewrite Hreq, Hw, Hc.
      destruct (resume _ _ _) as [σ' s'] eqn:Hr.
      destruct (proceed_outstanding σ' s') as [new ->]. exists new.
      change σ' with (σ', s').1. rewrite <- Hr. by rewrite resume_outstanding.
  - intros q' Hc. pose proof Hc as [_ ->]%consume_inv. split; [done|].
    simpl. by rewrite Hreq, Hw, Hc.
Qed.

(** C6, as amended. A message that is not an object ([typeof] other than
    ["object"]) is dropped by the listener: no queue changes, the state is
    the same, and nothing settles or throws. *)
Theorem dropped_non_object_message σ sub message :
  typeof message ≠ "object" →
  (∀ queue, on_message queue message = queue) ∧
  step σ (EMessage sub message) = (σ, Pending).
Proof.
  intros Ht.
  assert (∀ queue, on_message queue message = queue) as Hq.
  { intros queue. unfold on_message. by rewrite bool_decide_eq_true_2. }
  split; [done|]. simpl. f_equal. destruct σ as [m ws rs]; simpl. f_equal.
  apply list_alter_id. intros [q s k]; simpl. by rewrite Hq.
Qed.

(** ** Registry calls *)

Lemma entry_of_absent σ id : entry_of σ id = absent ↔ Map_get (subprocesses σ) id = None.
Proof. unfold entry_of. by destruct (Map_get _ _) as [[|]|]. Qed.

Lemma entry_of_tombstoned σ id :
  entry_of σ id = tombstoned ↔ Map_get (subprocesses σ) id = Some None.
Proof. unfold entry_of. by destruct (Map_get _ _) as [[|]|]. Qed.

Lemma entry_of_active σ id sub :
  entry_of σ id = active sub ↔ Map_get (subprocesses σ) id = Some (Some sub).
Proof.
  unfold entry_of. destruct (Map_get _ _) as [[|]|]; split; intros; simplify_eq; done.
Qed.

Lemma entry_of_same σ σ' id :
  subprocesses σ' = subprocesses σ → entry_of σ' id = entry_of σ id.
Proof. unfold entry_of. by intros ->. Qed.

Lemma entry_of_set_eq σ σ' id v :
  subprocesses σ' = Map_set (subprocesses σ) id v →
  entry_of σ' id = match v with Some sub => active sub | None => tombstoned end.
Proof. unfold entry_of. intros ->. rewrite Map_get_set_eq. by destruct v. Qed.

Lemma entry_of_set_ne σ σ' id id' v :
  subprocesses σ' = Map_set (subprocesses σ) id v → id ≠ id' →
  entry_of σ' id' = entry_of σ id'.
Proof. unfold entry_of. intros -> Hne. by rewrite Map_get_set_ne. Qed.

Lemma entry_of_delete_eq σ σ' id :
  subprocesses σ' = Map_delete (subprocesses σ) id →
  NoDup (Map_keys (subprocesses σ)) → entry_of σ' id = absent.
Proof. unfold entry_of. intros -> Hm. by rewrite Map_get_delete_eq. Qed.

Lemma entry_of_delete_ne σ σ' id id' :
  subprocesses σ' = Map_delete (subprocesses σ) id → id ≠ id' →
  entry_of σ' id' = entry_of σ id'.
Proof. unfold entry_of. intros -> Hne. by rewrite Map_get_delete_ne. Qed.

Lemma step_getServiceInfo_absent σ id :
  entry_of σ id = absent →
  step σ (ECall (GetServiceInfo id)) =
  (σ, Settled (Resolved (VObj [("status", SERVICE_STATUS_INIT)]))).
Proof. intros Hid%entry_of_absent. simpl. unfold getServiceInfo. by rewrite Hid. Qed.

Lemma step_start_fresh σ id config :
  (entry_of σ id = absent ∨ entry_of σ id = tombstoned) →
  step σ (ECall (Start id config)) =
  (State (Map_set (subprocesses σ) id (Some (length (workers σ))))
         (workers σ ++ [Worker [] [Action "start" config] false])
         (outstanding σ ++ [Request (length (workers σ)) "start" [start_catch id]]),
   Pending).
Proof.
  intros Hid.
  assert (start σ id config =
          (State (Map_set (subprocesses σ) id (Some (length (workers σ))))
                 (workers σ ++ [Worker [] [] false]) (outstanding σ),
           Await (length (workers σ)) "start" config [start_catch id])) as Hs.
  { unfold start.
    destruct Hid as [Hid%entry_of_absent|Hid%entry_of_tombstoned]; by rewrite Hid. }
  cbn [step enter]. rewrite Hs. unfold proceed, invoke. simpl. do 2 f_equal.
  rewrite <- (Nat.add_0_r (length (workers σ))) at 1. by rewrite alter_app_r.
Qed.

Lemma step_start_reuse σ id config sub :
  entry_of σ id = active sub →
  step σ (ECall (Start id config)) =
  (invoke σ sub "start" config [start_catch id], Pending).
Proof.
  intros Hid%entry_of_active. cbn [step enter]. unfold start. by rewrite Hid.
Qed.

(** C3. [getServiceInfo(id)] resolves at once with [{status: INIT}] when
    the id is absent and with [{status: STOPPED}] when it is tombstoned.
    When the id is active it sends [getStatus] to the worker and, in the
    turn that claims the [getStatus/done] reply, resolves with
    [{status: RUNNING, ...payload}]; this happens as soon as the worker
    answers.  The merge keeps every field of the reply and adds [status]
    when the reply has none. *)
Theorem getServiceInfo_by_entry σ id :
  (entry_of σ id = absent →
   step σ (ECall (GetServiceInfo id)) =
   (σ, Settled (Resolved (VObj [("status", SERVICE_STATUS_INIT)])))) ∧
  (entry_of σ id = tombstoned →
   step σ (ECall (GetServiceInfo id)) =
   (σ, Settled (Resolved (VObj [("status", SERVICE_STATUS_STOPPED)])))) ∧
  (∀ sub, entry_of σ id = active sub →
     step σ (ECall (GetServiceInfo id)) =
     (invoke σ sub "getStatus" VUndefined [getServiceInfo_then], Pending) ∧
     (∀ σ' n w q' payload,
        outstanding σ' !! n = Some (Request sub "getStatus" [getServiceInfo_then]) →
        workers σ' !! sub = Some w →
        consume (messageQueue w) "getStatus" = Normal (q', Some (Resolve payload)) →
        (step σ' (ETurn n)).2 =
        Settled (Resolved (VObj (spread [("status", SERVICE_STATUS_RUNNING)] payload)))) ∧
     (∀ w payload,
        workers σ !! sub = Some w →
        Forall well_formed (messageQueue w) →
        Forall (λ m, claimed_by "getStatus" m = None) (messageQueue w) →
        (await σ [ECall (GetServiceInfo id);
                  EMessage sub (reply "getStatus/done" payload);
                  ETurn (length (outstanding σ))]).2 =
        Settled (Resolved (VObj (spread [("status", SERVICE_STATUS_RUNNING)] payload))))) ∧
  (∀ fields k,
     own_property k (spread [("status", SERVICE_STATUS_RUNNING)] (VObj fields)) =
     match own_property k (reverse fields) with
     | Some v => Some v
     | None => if decide (k = "status") then Some SERVICE_STATUS_RUNNING else None
     end).
Proof.
  split_and!.
  - apply step_getServiceInfo_absent.
  - intros Hid%entry_of_tombstoned. simpl. unfold getServiceInfo. by rewrite Hid.
  - intros sub Hid%entry_of_active.
    assert (step σ (ECall (GetServiceInfo id)) =
            (invoke σ sub "getStatus" VUndefined [getServiceInfo_then], Pending)) as Hcall.
    { simpl. unfold getServiceInfo. by rewrite Hid. }
    split_and!; [done| |].
    + intros σ' n w q' payload Hreq Hw Hc.
      by rewrite (step_turn _ _ _ _ _ _ Hreq Hw Hc).
    + intros w payload Hw Hwf Hnone. rewrite (await_pending _ _ _ _ Hcall).
      erewrite await_pending by done. rewrite await_last.
      set (σ2 := State _ _ _).
      assert (outstanding σ2 !! length (outstanding σ) =
              Some (Request sub "getStatus" [getServiceInfo_then])) as Hreq.
      { simpl. by apply list_lookup_middle. }
      assert (workers σ2 !! sub =
              Some (Worker (messageQueue w ++ [reply "getStatus/done" payload])
                           (sent w ++ [Action "getStatus" VUndefined]) (killed w))) as Hw2.
      { simpl. by rewrite !list_lookup_alter_eq, Hw. }
      rewrite (step_turn _ _ _ _ (messageQueue w) (Resolve payload) Hreq Hw2); [done|].
      simpl. apply consume_snoc; [done..|]. apply (claimed_by_reply_done "getStatus").
  - intros fields k. unfold spread. simpl. rewrite own_property_spread. simpl.
    destruct (own_property k (reverse fields)); [done|].
    destruct (decide (k = "status")) as [->|Hne]; [done|]. by rewrite decide_False.
Qed.


(** C5. [stop(id)] on an absent or tombstoned id rejects with
    [service(id) is not found] and changes nothing; the turn in which a
    stop succeeds leaves the id tombstoned, so that a second [stop(id)]
    rejects with that same error. *)
Theorem stop_not_found σ id :
  (entry_of σ id = absent ∨ entry_of σ id = tombstoned →
   step σ (ECall (Stop id)) = (σ, Settled (Rejected (not_found id)))) ∧
  (∀ n sub w q' payload,
     outstanding σ !! n = Some (Request sub "stop" [stop_then id sub]) →
     workers σ !! sub = Some w →
     consume (messageQueue w) "stop" = Normal (q', Some (Resolve payload)) →
     let σ' := (step σ (ETurn n)).1 in
     (step σ (ETurn n)).2 = Settled (Resolved VUndefined) ∧
     entry_of σ' id = tombstoned ∧
     step σ' (ECall (Stop id)) = (σ', Settled (Rejected (not_found id)))).
Proof.
  assert (∀ σ0, entry_of σ0 id = absent ∨ entry_of σ0 id = tombstoned →
          step σ0 (ECall (Stop id)) = (σ0, Settled (Rejected (not_found id)))) as Hstop.
  { intros σ0 [Hid%entry_of_absent|Hid%entry_of_tombstoned];
      simpl; unfold stop; by rewrite Hid. }
  split; [apply Hstop|].
  intros n sub w q' payload Hreq Hw Hc.
  rewrite (step_turn _ _ _ _ _ _ Hreq Hw Hc). simpl.
  assert (entry_of
            (State (Map_set (subprocesses σ) id None)
               (alter (λ w0, Worker (messageQueue w0) (sent w0) true) sub
                  (<[sub:=Worker q' (sent w) (killed w)]> (workers σ)))
               (delete n (outstanding σ))) id = tombstoned) as Hid.
  { apply entry_of_tombstoned. simpl. apply Map_get_set_eq. }
  split_and!; [done..|]. apply Hstop. by right.
Qed.

(** C7. [getMetrics(id, type)] on an absent or tombstoned id resolves
    with the empty array whatever [type] is; on an active id each of the
    five kinds sends its own method name to the worker, and the five names
    are distinct. *)
Theorem getMetrics_dispatch σ id :
  (entry_of σ id = absent ∨ entry_of σ id = tombstoned →
   ∀ type, step σ (ECall (GetMetrics id type)) = (σ, Settled (Resolved (VArr [])))) ∧
  (∀ sub kind method,
     entry_of σ id = active sub →
     (kind, method) ∈ metric_methods →
     step σ (ECall (GetMetrics id (VStr kind))) =
     (invoke σ sub method VUndefined [], Pending)) ∧
  NoDup metric_methods.*1 ∧ NoDup metric_methods.*2.
Proof.
  split_and!.
  - intros [Hid%entry_of_absent|Hid%entry_of_tombstoned] type;
      simpl; unfold getMetrics; by rewrite Hid.
  - intros sub kind method Hid%entry_of_active Hin. simpl. unfold getMetrics. rewrite Hid.
    unfold metric_methods in Hin.
    repeat (apply elem_of_cons in Hin as [[= -> ->]|Hin]; [done|]).
    by apply not_elem_of_nil in Hin.
  - compute_done.
  - compute_done.
Qed.

(** C10. When the turn of a [stop] request claims a [stop/error] reply,
    the call rejects with that error, the map is unchanged, no process is
    killed, and an id that held the handle still holds it:
    [getServiceInfo(id)] asks the worker for its status again. *)
Theorem stop_failure_keeps_entry σ n id sub w q' err :
  outstanding σ !! n = Some (Request sub "stop" [stop_then id sub]) →
  workers σ !! sub = Some w →
  consume (messageQueue w) "stop" = Normal (q', Some (Reject err)) →
  let σ' := (step σ (ETurn n)).1 in
  (step σ (ETurn n)).2 = Settled (Rejected err) ∧
  (∃ i message, messageQueue w !! i = Some message ∧
                message_type message = Some "stop/error" ∧
                err = Error (message_payload message)) ∧
  subprocesses σ' = subprocesses σ ∧
  killed <$> workers σ' = killed <$> workers σ ∧
  (entry_of σ id = active sub →
   entry_of σ' id = active sub ∧
   step σ' (ECall (GetServiceInfo id)) =
   (invoke σ' sub "getStatus" VUndefined [getServiceInfo_then], Pending)).
Proof.
  intros Hreq Hw Hc. rewrite (step_turn _ _ _ _ _ _ Hreq Hw Hc). simpl.
  split_and!; [done| |done| |].
  - apply consume_inv in Hc as (i & Hs & _).
    apply scanQueue_from_found in Hs as (j & -> & (message & Hm & Hcl) & _).
    exists j, message. split; [done|].
    apply claimed_by_inv in Hcl as [[_ [=]]|[Ht [= ->]]]. done.
  - rewrite list_fmap_insert. simpl. apply list_insert_id.
    by rewrite list_lookup_fmap, Hw.
  - intros Hid. split; [done|]. apply entry_of_active in Hid.
    unfold getServiceInfo. simpl. by rewrite Hid.
Qed.

(** ** The life cycle of an entry *)

Lemma registry_ok_same σ σ' :
  subprocesses σ' = subprocesses σ → flags σ' = flags σ →
  registry_ok σ → registry_ok σ'.
Proof.
  intros Hs Hf [Hk Hl Hi]. split.
  - by rewrite Hs.
  - intros id sub. rewrite (entry_of_same σ σ'), Hf by done. apply Hl.
  - intros id id' sub. rewrite !(entry_of_same σ σ') by done. apply Hi.
Qed.

Lemma request_ok_same σ σ' req :
  subprocesses σ' = subprocesses σ → request_ok σ req → request_ok σ' req.
Proof.
  intros Hs. unfold request_ok.
  destruct (request_then req) as [|[] [|[] [|]]]; try done;
    by rewrite !(entry_of_same σ σ') by done.
Qed.

Lemma registry_live_lt σ id sub :
  registry_ok σ → entry_of σ id = active sub → sub < length (workers σ).
Proof.
  intros Hok Hid. apply (registry_live _ Hok) in Hid.
  apply lookup_lt_Some in Hid. unfold flags in Hid. by rewrite length_fmap in Hid.
Qed.

(** The loop of [getServices] either finishes or waits for one status. *)
Lemma getServices_from_shape σ entries next services :
  (∃ v, getServices_from σ entries next services = Return (Resolved v)) ∨
  (∃ sub services' id next',
     getServices_from σ entries next services =
     Await sub "getStatus" VUndefined
       [getServiceInfo_then; getServices_then services' id next']).
Proof.
  revert next services; induction entries as [|[[id v]|] entries IH];
    intros next services; simpl; [eauto| |apply IH].
  unfold getServiceInfo. destruct (Map_get (subprocesses σ) id) as [[sub|]|].
  - right. by exists sub, services, id, (S next).
  - apply IH.
  - apply IH.
Qed.

(** A start that forks: the new handle is live and belongs to [id] alone. *)
Lemma step_start_fresh_ok σ id config :
  registry_ok σ → outstanding σ = [] →
  entry_of σ id = absent ∨ entry_of σ id = tombstoned →
  registry_ok (step σ (ECall (Start id config))).1 ∧
  requests_ok (step σ (ECall (Start id config))).1 ∧
  entry_of (step σ (ECall (Start id config))).1 id = active (length (workers σ)) ∧
  ∀ id', id ≠ id' → entry_of (step σ (ECall (Start id config))).1 id' = entry_of σ id'.
Proof.
  intros Hok Hout Hid. rewrite step_start_fresh by done. cbn [fst].
  set (n := length (workers σ)). set (σ' := State _ _ _).
  assert (entry_of σ' id = active n) as Hid'
    by apply (entry_of_set_eq σ σ' id (Some n) eq_refl).
  assert (∀ id', id ≠ id' → entry_of σ' id' = entry_of σ id') as Hne
    by (intros id' ?; by apply (entry_of_set_ne σ σ' id id' (Some n))).
  assert (flags σ' = flags σ ++ [false]) as Hflags
    by (unfold flags; simpl; by rewrite fmap_app).
  assert (∀ id' sub, id ≠ id' → entry_of σ' id' = active sub → sub < n) as Hold.
  { intros id' sub Hd Hs. rewrite Hne in Hs by done. by apply (registry_live_lt σ id'). }
  split_and!; [split| |done..].
  - apply (Map_set_NoDup (subprocesses σ)), Hok.
  - intros id' sub Hs. rewrite Hflags. destruct (decide (id = id')) as [<-|Hd].
    + rewrite Hid' in Hs. injection Hs as <-. apply list_lookup_middle.
      unfold flags. by rewrite length_fmap.
    + rewrite Hne in Hs by done. apply lookup_app_l_Some.
      by apply (registry_live _ Hok id').
  - intros id1 id2 sub H1 H2.
    destruct (decide (id = id1)) as [<-|Hd1], (decide (id = id2)) as [<-|Hd2].
    + done.
    + rewrite Hid' in H1. injection H1 as <-. apply Hold in H2; [lia | done].
    + rewrite Hid' in H2. injection H2 as <-. apply Hold in H1; [lia | done].
    + rewrite Hne in H1, H2 by done. by apply (registry_inj _ Hok id1 id2 sub).
  - right. exists (Request n "start" [start_catch id]).
    split; [unfold σ'; simpl; by rewrite Hout | exact Hid'].
Qed.

(** A call, a message or a turn from a state that satisfies the invariant. *)
Lemma step_call_ok σ c :
  registry_ok σ → outstanding σ = [] →
  registry_ok (step σ (ECall c)).1 ∧ requests_ok (step σ (ECall c)).1 ∧
  ∀ id, transition id (entry_of σ id) (ECall c) (step σ (ECall c)).2
          (entry_of (step σ (ECall c)).1 id).
Proof.
  intros Hok Hout.
  assert (∀ s, (∀ sub method args k, s = Await sub method args k →
                  request_ok σ (Request sub method k)) →
          registry_ok (proceed σ s).1 ∧ requests_ok (proceed σ s).1 ∧
          ∀ id ev r, transition id (entry_of σ id) ev r
                       (entry_of (proceed σ s).1 id)) as Hproceed.
  { intros [r|sub method args k] Hs; simpl.
    - split_and!; [done|by left|intros; apply stays].
    - split_and!; [|right|intros; apply stays].
      + apply (registry_ok_same σ); [done|apply invoke_flags|done].
      + unfold invoke at 1; simpl. rewrite Hout. eexists. split; [done|].
        apply (request_ok_same σ); [done|]. by apply (Hs sub method args k). }
  destruct c as [id config|id| |id|id type]; cbn [step enter].
  - change (let '(σ0, s) := start σ id config in proceed σ0 s)
      with (step σ (ECall (Start id config))).
    destruct (entry_of σ id) as [| |sub] eqn:Hid.
    + destruct (step_start_fresh_ok σ id config) as (? & ? & Hid' & Hne); [by auto..|].
      split_and!; [done..|]. intros id'. destruct (decide (id = id')) as [<-|Hd].
      * rewrite Hid, Hid', step_start_fresh by auto. constructor.
      * rewrite Hne by done. apply stays.
    + destruct (step_start_fresh_ok σ id config) as (? & ? & Hid' & Hne); [by auto..|].
      split_and!; [done..|]. intros id'. destruct (decide (id = id')) as [<-|Hd].
      * rewrite Hid, Hid', step_start_fresh by auto. constructor.
      * rewrite Hne by done. apply stays.
    + rewrite (step_start_reuse _ _ _ _ Hid).
      destruct (Hproceed (Await sub "start" config [start_catch id]))
        as (? & ? & ?); [|by eauto].
      by intros ???? [= <- <- <- <-].
  - destruct (Hproceed (stop σ id)) as (? & ? & ?); [|by eauto].
    intros sub method args k. unfold stop, request_ok.
    destruct (Map_get (subprocesses σ) id) as [[sub'|]|] eqn:Hid; [|done..].
    intros [= <- <- <- <-]. simpl. split; [done|]. by apply entry_of_active.
  - destruct (Hproceed (getServices σ)) as (? & ? & ?); [|by eauto].
    intros sub method args k. unfold getServices, request_ok.
    destruct (getServices_from_shape σ (subprocesses σ) 0 [])
      as [[v ->]|(sub' & services' & id' & next' & ->)]; [done|].
    by intros [= <- <- <- <-].
  - destruct (Hproceed (getServiceInfo σ id)) as (? & ? & ?); [|by eauto].
    intros sub method args k. unfold getServiceInfo, request_ok.
    destruct (Map_get (subprocesses σ) id) as [[sub'|]|] eqn:Hid; [|done..].
    by intros [= <- <- <- <-].
  - destruct (Hproceed (getMetrics σ id type)) as (? & ? & ?); [|by eauto].
    intros sub method args k. unfold getMetrics, request_ok.
    destruct (Map_get (subprocesses σ) id) as [[sub'|]|] eqn:Hid; [|done..].
    repeat (destruct (strict_equals_string _ _); [by intros [= <- <- <- <-]|]). done.
Qed.

Lemma step_message_ok σ sub message :
  registry_ok σ → requests_ok σ →
  registry_ok (step σ (EMessage sub message)).1 ∧
  requests_ok (step σ (EMessage sub message)).1 ∧
  ∀ id, entry_of (step σ (EMessage sub message)).1 id = entry_of σ id.
Proof.
  intros Hok Hreq. simpl. split_and!; [| |done].
  - apply (registry_ok_same σ); [done| |done].
    unfold flags; simpl. by apply alter_same_flag.
  - destruct Hreq as [Hout|(req & Hout & Hr)]; [by left|right].
    exists req. split; [done|]. by apply (request_ok_same σ).
Qed.

Lemma step_turn_ok σ n :
  registry_ok σ → requests_ok σ →
  registry_ok (step σ (ETurn n)).1 ∧ requests_ok (step σ (ETurn n)).1 ∧
  ∀ id, transition id (entry_of σ id) (ETurn n) (step σ (ETurn n)).2
          (entry_of (step σ (ETurn n)).1 id).
Proof.
  intros Hok Hreq.
  assert (registry_ok σ ∧ requests_ok σ ∧
          ∀ id r, transition id (entry_of σ id) (ETurn n) r (entry_of σ id)) as Hsame.
  { split_and!; [done..|]. intros; apply stays. }
  destruct (outstanding σ !! n) as [req|] eqn:Hn;
    [|cbn [step]; rewrite Hn; destruct Hsame as (? & ? & ?); by eauto].
  destruct (workers σ !! request_sub req) as [w|] eqn:Hw;
    [|cbn [step]; rewrite Hn, Hw; destruct Hsame as (? & ? & ?); by eauto].
  destruct Hreq as [Hout|(req' & Hout & Hr)]; [by rewrite Hout in Hn|].
  rewrite Hout in Hn. destruct n as [|n]; [|done]. injection Hn as ->.
  destruct (consume (messageQueue w) (request_type req)) as [[q' [s|]]|e] eqn:Hc.
  3: { cbn [step]. rewrite Hout; cbn [lookup list_lookup]. rewrite Hw, Hc. simpl.
       split_and!; [by apply (registry_ok_same σ)|by left|intros; apply stays]. }
  2: { cbn [step]. rewrite Hout; cbn [lookup list_lookup]. rewrite Hw, Hc.
       destruct Hsame as (? & ? & ?). by eauto. }
  rewrite (step_turn σ 0 req w q' s); [|by rewrite Hout|done..].
  rewrite Hout. cbn [delete list_delete].
  set (σ1 := State _ _ _).
  assert (flags σ1 = flags σ) as Hflags.
  { unfold flags; simpl. rewrite list_fmap_insert. simpl. apply list_insert_id.
    by rewrite list_lookup_fmap, Hw. }
  assert (registry_ok σ1) as Hok1 by by apply (registry_ok_same σ).
  assert (∀ r, registry_ok (proceed σ1 (Return r)).1 ∧
               requests_ok (proceed σ1 (Return r)).1 ∧
               ∀ id r', transition id (entry_of σ id) (ETurn 0) r' (entry_of σ1 id)) as Hret.
  { intros r. split_and!; [done|by left|intros; apply stays]. }
  unfold request_ok in Hr. destruct req as [sub method k]; simpl in *.
  destruct k as [|f1 [|f2 [|f3 k]]];
    [ | destruct f1 as [id|id sub'| |services id next]
      | destruct f1 as [id1|id1 sub1| |services1 id1 next1],
                 f2 as [id2|id2 sub2| |services id next]
      | destruct f1 as [| | |], f2 as [| | |] ]; try done.
  - (* nothing left to run *)
    simpl. destruct (Hret (settle s)) as (? & ? & ?). eauto.
  - (* start *)
    destruct s as [payload|err]; simpl.
    { destruct (Hret (Resolved VUndefined)) as (? & ? & ?). eauto. }
    set (σ2 := State _ _ _).
    assert (entry_of σ2 id = absent) as Hid'.
    { apply (entry_of_delete_eq σ σ2); [done|apply Hok]. }
    assert (∀ id', id ≠ id' → entry_of σ2 id' = entry_of σ id') as Hne.
    { intros id' ?. by apply (entry_of_delete_ne σ σ2 id). }
    assert (∀ id' s', entry_of σ2 id' = active s' → entry_of σ id' = active s') as Hact.
    { intros id' s' Hs'. destruct (decide (id = id')) as [<-|?]; [congruence|].
      by rewrite <- Hne. }
    split_and!.
    + split.
      * apply (Map_delete_NoDup (subprocesses σ)), Hok.
      * intros id' s' Hs'%Hact. change (flags σ2) with (flags σ1). rewrite Hflags.
        by apply (registry_live _ Hok id').
      * intros id1 id2 s' H1%Hact H2%Hact. by apply (registry_inj _ Hok id1 id2 s').
    + by left.
    + intros id'. destruct (decide (id = id')) as [<-|?].
      * rewrite Hr, Hid'. constructor.
      * rewrite Hne by done. apply stays.
  - (* stop *)
    destruct Hr as [-> Hid]. destruct s as [payload|err]; simpl.
    2: { destruct (Hret (Rejected err)) as (? & ? & ?). eauto. }
    set (σ2 := State _ _ _).
    assert (entry_of σ2 id = tombstoned) as Hid'.
    { by apply (entry_of_set_eq σ σ2 id None). }
    assert (∀ id', id ≠ id' → entry_of σ2 id' = entry_of σ id') as Hne.
    { intros id' ?. by apply (entry_of_set_ne σ σ2 id id' None). }
    assert (∀ id' s', entry_of σ2 id' = active s' →
                      id ≠ id' ∧ entry_of σ id' = active s') as Hact.
    { intros id' s' Hs'. destruct (decide (id = id')) as [<-|?]; [congruence|].
      by rewrite <- Hne. }
    split_and!.
    + split.
      * apply (Map_set_NoDup (subprocesses σ)), Hok.
      * intros id' s' [Hd Hs']%Hact. change (flags σ2) with (flags (kill σ1 sub)).
        rewrite kill_flags_ne, Hflags; [by apply (registry_live _ Hok id')|].
        intros <-. by apply Hd, (registry_inj _ Hok id id' sub).
      * intros id1 id2 s' [_ H1]%Hact [_ H2]%Hact.
        by apply (registry_inj _ Hok id1 id2 s').
    + by left.
    + intros id'. destruct (decide (id = id')) as [<-|?].
      * rewrite Hid, Hid'. constructor.
      * rewrite Hne by done. apply stays.
  - (* getServiceInfo *)
    destruct s as [payload|err]; simpl.
    + destruct (Hret (Resolved (VObj (spread [("status", SERVICE_STATUS_RUNNING)] payload))))
        as (? & ? & ?). eauto.
    + destruct (Hret (Rejected err)) as (? & ? & ?). eauto.
  - (* getServices *)
    destruct s as [payload|err]; simpl.
    2: { destruct (Hret (Rejected err)) as (? & ? & ?). eauto. }
    destruct (getServices_from_shape σ1 (drop next (subprocesses σ)) next
                (set_property id
                   (VObj (spread [("status", SERVICE_STATUS_RUNNING)] payload)) services))
      as [[v ->]|(sub' & services' & id' & next' & ->)].
    + destruct (Hret (Resolved v)) as (? & ? & ?). eauto.
    + simpl. split_and!.
      * apply (registry_ok_same σ1); [done|apply invoke_flags|done].
      * right. eexists. split; [done|]. by unfold request_ok.
      * intros; apply stays.
Qed.

Lemma initial_invariant : invariant initial.
Proof.
  split; [split|by left].
  - constructor.
  - intros id sub. unfold entry_of. done.
  - intros id id' sub. unfold entry_of. done.
Qed.

Lemma step_invariant σ e :
  invariant σ → awaited σ e →
  invariant (step σ e).1 ∧
  ∀ id, transition id (entry_of σ id) e (step σ e).2 (entry_of (step σ e).1 id).
Proof.
  intros [Hok Hreq] Haw. destruct e as [c|sub message|n].
  - destruct (step_call_ok σ c Hok Haw) as (? & ? & ?). split; [by split | done].
  - destruct (step_message_ok σ sub message Hok Hreq) as (? & ? & Hsame).
    split; [by split|]. intros id. rewrite Hsame. apply stays.
  - destruct (step_turn_ok σ n Hok Hreq) as (? & ? & ?). split; [by split | done].
Qed.

Lemma sequential_run σ es : sequential σ → all_awaited σ es → sequential (run σ es).
Proof.
  revert σ; induction es as [|e es IH]; intros σ Hseq Haw; [done|].
  destruct Haw as [He Hes]. apply IH; [by constructor | done].
Qed.

Lemma sequential_invariant σ : sequential σ → invariant σ.
Proof.
  induction 1 as [|σ e _ IH Haw]; [apply initial_invariant|].
  by apply step_invariant.
Qed.


(** ** The result of [getServices] *)

Lemma Map_keys_app {V} (m1 m2 : Map V) : Map_keys (m1 ++ m2) = Map_keys m1 ++ Map_keys m2.
Proof. unfold Map_keys. apply omap_app. Qed.

Lemma Map_get_elem {V} (m : Map V) id v :
  NoDup (Map_keys m) → Some (id, v) ∈ m → Map_get m id = Some v.
Proof.
  unfold Map_keys. induction m as [|[[k0 v0]|] m IH]; csimpl.
  - by intros _ ?%not_elem_of_nil.
  - intros [Hk0 Hm]%NoDup_cons [[= -> ->]|Hin]%elem_of_cons.
    + by rewrite decide_True.
    + rewrite decide_False; [by apply IH|]. intros ->. apply Hk0.
      apply list_elem_of_omap. by exists (Some (id, v)).
  - intros Hm [|Hin]%elem_of_cons; [done | by apply IH].
Qed.

Lemma getServices_from_spec σ entries next services :
  (∀ id v, Some (id, v) ∈ entries → Map_get (subprocesses σ) id = Some v) →
  (∃ infos,
     Forall2 (info_for (subprocesses σ)) (Map_keys entries) infos ∧
     getServices_from σ entries next services =
     Return (Resolved (VObj (assign services (Map_keys entries) infos)))) ∨
  (∃ pre id sub post infos,
     entries = pre ++ Some (id, Some sub) :: post ∧
     Forall2 (info_for (subprocesses σ)) (Map_keys pre) infos ∧
     getServices_from σ entries next services =
     Await sub "getStatus" VUndefined
       [getServiceInfo_then;
        getServices_then (assign services (Map_keys pre) infos) id (next + S (length pre))]).
Proof.
  revert next services. induction entries as [|[[id v]|] entries IH];
    intros next services Hget.
  - left. exists []. by split.
  - assert (Map_get (subprocesses σ) id = Some v) as Hid by (apply Hget; apply list_elem_of_here).
    assert (∀ id' v', Some (id', v') ∈ entries →
                      Map_get (subprocesses σ) id' = Some v') as Hget'
      by (intros ???; apply Hget; by apply list_elem_of_further).
    assert (∀ services,
              getServices_from σ (Some (id, v) :: entries) next services =
              match v with
              | Some sub =>
                  Await sub "getStatus" VUndefined
                    [getServiceInfo_then; getServices_then services id (S next)]
              | None =>
                  getServices_from σ entries (S next)
                    (set_property id (VObj [("status", SERVICE_STATUS_STOPPED)]) services)
              end) as Hloop.
    { intros services'. cbn [getServices_from]. unfold getServiceInfo. rewrite Hid.
      by destruct v. }
    rewrite Hloop. destruct v as [sub|].
    + right. exists [], id, sub, entries, []. split_and!; [done|constructor|].
      simpl. by rewrite Nat.add_1_r.
    + set (info := VObj [("status", SERVICE_STATUS_STOPPED)]).
      assert (info_for (subprocesses σ) id info) as Hinfo
        by (unfold info_for; by rewrite Hid).
      destruct (IH (S next) (set_property id info services) Hget')
        as [(infos & Hinfos & ->)|(pre & id' & sub & post & infos & -> & Hinfos & ->)].
      * left. exists (info :: infos). split; [by constructor | done].
      * right. exists (Some (id, None) :: pre), id', sub, post, (info :: infos).
        split_and!; [done|by constructor|]. simpl. do 4 f_equal. lia.
  - destruct (IH (S next) services)
      as [(infos & Hinfos & Hr)|(pre & id' & sub & post & infos & -> & Hinfos & Hr)].
    { intros ???; apply Hget; by apply list_elem_of_further. }
    + left. by exists infos.
    + right. exists (None :: pre), id', sub, post, infos.
      split_and!; [done..|]. simpl. rewrite Hr. do 4 f_equal. lia.
Qed.

Lemma getServices_from_progress m σ visited rest infos :
  NoDup (Map_keys m) → subprocesses σ = m → outstanding σ = [] →
  m = visited ++ rest →
  Forall2 (info_for m) (Map_keys visited) infos →
  let s := getServices_from σ rest (length visited) (assign [] (Map_keys visited) infos) in
  (∃ infos', Forall2 (info_for m) (Map_keys m) infos' ∧
             s = Return (Resolved (VObj (assign [] (Map_keys m) infos')))) ∨
  (looping m (proceed σ s).1 ∧ (proceed σ s).2 = Pending).
Proof.
  intros Hm Hσ Hout Hsplit Hinfos s.
  pose proof (Forall2_length _ _ _ Hinfos) as Hlen.
  destruct (getServices_from_spec σ rest (length visited)
              (assign [] (Map_keys visited) infos))
    as [(infos2 & Hinfos2 & Hs)|(pre & id & sub & post & infos2 & -> & Hinfos2 & Hs)].
  { intros id v Hin. rewrite Hσ. apply Map_get_elem; [done|].
    rewrite Hsplit. apply elem_of_app. by right. }
  - left. exists (infos ++ infos2). rewrite Hσ in Hinfos2.
    assert (Map_keys m = Map_keys visited ++ Map_keys rest) as ->
      by (rewrite Hsplit; apply Map_keys_app).
    split.
    + by apply Forall2_app.
    + unfold s. rewrite Hs. by rewrite assign_app.
  - right. unfold s. rewrite Hs. simpl. split; [|done]. split; [done|].
    rewrite Hσ in Hinfos2.
    exists (visited ++ pre), id, sub, post, (infos ++ infos2). split_and!.
    + by rewrite Hsplit, <- app_assoc.
    + rewrite Map_keys_app. by apply Forall2_app.
    + unfold invoke; cbn [outstanding]. rewrite Hout. simpl.
      rewrite Map_keys_app, assign_app by done.
      rewrite length_app. do 5 f_equal. lia.
Qed.

Lemma getServices_run m es :
  NoDup (Map_keys m) → Forall no_call es →
  ∀ σ σ' v,
    looping m σ → await σ es = (σ', Settled (Resolved v)) →
    ∃ infos, Forall2 (info_for m) (Map_keys m) infos ∧
             v = VObj (assign [] (Map_keys m) infos).
Proof.
  intros Hm Hes. induction Hes as [|e es He _ IH]; intros σ σ' v Hloop Hrun; [done|].
  assert (∀ σ1, step σ e = (σ1, Pending) → looping m σ1 →
          ∃ infos, Forall2 (info_for m) (Map_keys m) infos ∧
                   v = VObj (assign [] (Map_keys m) infos)) as Hnext.
  { intros σ1 Hstep Hloop1. rewrite (await_pending _ _ _ _ Hstep) in Hrun. eauto. }
  destruct e as [c|sub' message|n]; [done| |].
  - eapply Hnext; [done|]. destruct Hloop as [Hσ Hreq]. by split.
  - pose proof Hloop as (Hσ & pre & id & sub & post & infos & Hsplit & Hinfos & Hout).
    destruct n as [|n].
    2: { eapply Hnext; [|done]. cbn [step]. by rewrite Hout. }
    destruct (workers σ !! sub) as [w|] eqn:Hw.
    2: { eapply Hnext; [|done]. cbn [step]. rewrite Hout; cbn [lookup list_lookup].
         simpl. by rewrite Hw. }
    destruct (consume (messageQueue w) "getStatus") as [[q' [[payload|err]|]]|err] eqn:Hc.
    4: { simpl in Hrun. rewrite Hout in Hrun; simpl in Hrun. by rewrite Hw, Hc in Hrun. }
    3: { eapply Hnext; [|done]. cbn [step]. rewrite Hout; cbn [lookup list_lookup].
         simpl. by rewrite Hw, Hc. }
    2: { simpl in Hrun. rewrite Hout in Hrun; simpl in Hrun. by rewrite Hw, Hc in Hrun. }
    assert (outstanding σ !! 0 = Some (Request sub "getStatus"
              [getServiceInfo_then;
               getServices_then (assign [] (Map_keys pre) infos) id (S (length pre))]))
      as Hreq by by rewrite Hout.
    pose proof (step_turn σ 0 _ w q' (Resolve payload) Hreq Hw Hc) as Hstep.
    rewrite Hout in Hstep. cbn [request_then request_sub delete list_delete] in Hstep.
    set (σ1 := State _ _ _) in Hstep.
    set (info := VObj (spread [("status", SERVICE_STATUS_RUNNING)] payload)).
    assert (resume [getServiceInfo_then;
                    getServices_then (assign [] (Map_keys pre) infos) id (S (length pre))]
                   σ1 (settle (Resolve payload)) =
            (σ1, getServices_from σ1 post (length (pre ++ [Some (id, Some sub)]))
                   (assign [] (Map_keys (pre ++ [Some (id, Some sub)])) (infos ++ [info]))))
      as Hres.
    { change (resume (?f :: ?k) σ1 (settle (Resolve payload)))
        with (resume k σ1 (Resolved info)).
      rewrite resume_last. cbn [run_frame]. f_equal.
      rewrite length_app, Nat.add_1_r. f_equal.
      - simpl. rewrite Hσ, Hsplit, cons_middle, app_assoc.
        apply drop_app_length'. by rewrite length_app, Nat.add_1_r.
      - rewrite Map_keys_app, assign_app by by eapply Forall2_length. done. }
    rewrite Hres in Hstep.
    assert (info_for m id info) as Hinfo.
    { unfold info_for. rewrite (Map_get_elem m id (Some sub)); [by exists payload|done|].
      rewrite Hsplit. apply elem_of_app. right. apply list_elem_of_here. }
    destruct (getServices_from_progress m σ1 (pre ++ [Some (id, Some sub)]) post
                (infos ++ [info])) as [(infos' & Hinfos' & Hs)|[Hloop1 Hp]];
      [done..| by rewrite Hsplit, <- app_assoc | | |].
    + rewrite Map_keys_app. apply Forall2_app; [done|]. by repeat constructor.
    + rewrite Hs in Hstep. simpl in Hrun, Hstep. rewrite Hstep in Hrun.
      injection Hrun as _ <-. eauto.
    + eapply Hnext; [|done]. rewrite Hstep. by apply injective_projections.
Qed.

Lemma getServices_resolved σ es σ' v :
  NoDup (Map_keys (subprocesses σ)) → outstanding σ = [] → Forall no_call es →
  await σ (ECall GetServices :: es) = (σ', Settled (Resolved v)) →
  ∃ infos,
    Forall2 (info_for (subprocesses σ)) (Map_keys (subprocesses σ)) infos ∧
    v = VObj (assign [] (Map_keys (subprocesses σ)) infos).
Proof.
  intros Hm Hout Hes Hrun.
  assert (step σ (ECall GetServices) = proceed σ (getServices σ)) as Hcall by done.
  destruct (getServices_from_progress (subprocesses σ) σ [] (subprocesses σ) [])
    as [(infos' & Hinfos' & Hs)|[Hloop Hp]]; [done..|constructor| |].
  - exists infos'. split; [done|].
    change (getServices σ = Return (Resolved
              (VObj (assign [] (Map_keys (subprocesses σ)) infos')))) in Hs.
    rewrite Hs in Hcall. cbn [await] in Hrun. rewrite Hcall in Hrun. simpl in Hrun.
    by injection Hrun as _ <-.
  - change (looping (subprocesses σ) (proceed σ (getServices σ)).1) in Hloop.
    change ((proceed σ (getServices σ)).2 = Pending) in Hp.
    apply (getServices_run (subprocesses σ) es Hm Hes _ σ' v Hloop).
    rewrite <- Hrun. symmetry. apply await_pending. rewrite Hcall.
    by apply injective_projections.
Qed.

Lemma getServices_from_resolves m rest :
  NoDup (Map_keys m) →
  ∀ visited services payloads σ,
    m = visited ++ rest →
    subprocesses σ = m → outstanding σ = [] →
    (∀ sub, sub ∈ active_handles rest →
            ∃ w, workers σ !! sub = Some w ∧ quiet "getStatus" w) →
    length payloads = length (active_handles rest) →
    (resolves (proceed σ (getServices_from σ rest (length visited) services))
              (status_replies rest payloads)).2 =
    Settled (Resolved (VObj (assign services (Map_keys rest) (status_infos rest payloads)))).
Proof.
  intros Hm. induction rest as [|[[id [sub|]]|] rest IH];
    intros visited services payloads σ Hsplit Hσ Hout Hquiet Hlen.
  - done.
  - (* a running service: wait for its status *)
    destruct payloads as [|payload payloads]; [done|].
    assert (Map_get (subprocesses σ) id = Some (Some sub)) as Hid.
    { rewrite Hσ. apply Map_get_elem; [done|]. rewrite Hsplit.
      apply elem_of_app. right. apply list_elem_of_here. }
    destruct (Hquiet sub) as (w & Hw & Hwf & Hnone); [apply list_elem_of_here|].
    cbn [getServices_from]. unfold getServiceInfo at 1. rewrite Hid.
    cbn [app proceed resolves snd fst status_replies].
    set (k := [getServiceInfo_then; getServices_then services id (S (length visited))]).
    erewrite await_pending by done.
    set (σ2 := State _ _ _).
    assert (outstanding σ2 !! 0 = Some (Request sub "getStatus" k)) as Hreq.
    { simpl. by rewrite Hout. }
    assert (workers σ2 !! sub =
            Some (Worker (messageQueue w ++ [reply "getStatus/done" payload])
                         (sent w ++ [Action "getStatus" VUndefined]) (killed w))) as Hw2.
    { simpl. by rewrite !list_lookup_alter_eq, Hw. }
    pose proof (step_turn σ2 0 _ _ (messageQueue w) (Resolve payload) Hreq Hw2) as Hstep.
    cbn [request_then request_sub request_type messageQueue sent killed] in Hstep.
    rewrite await_cons, Hstep
      by (apply consume_snoc; [done..|apply (claimed_by_reply_done "getStatus")]).
    clear Hstep. set (σ3 := State _ _ _).
    set (info := VObj (spread [("status", SERVICE_STATUS_RUNNING)] payload)).
    assert (resume k σ3 (settle (Resolve payload)) =
            (σ3, getServices_from σ3 rest (length (visited ++ [Some (id, Some sub)]))
                   (set_property id info services))) as ->.
    { change (resume k σ3 (settle (Resolve payload)))
        with (resume [getServices_then services id (S (length visited))] σ3 (Resolved info)).
      rewrite resume_last. cbn [run_frame]. f_equal.
      rewrite length_app, Nat.add_1_r. f_equal.
      simpl. rewrite Hσ, Hsplit, cons_middle, app_assoc.
      apply drop_app_length'. by rewrite length_app, Nat.add_1_r. }
    apply (IH (visited ++ [Some (id, Some sub)]) (set_property id info services)
              payloads σ3).
    + by rewrite Hsplit, <- app_assoc.
    + done.
    + simpl. by rewrite Hout.
    + intros sub' Hin.
      destruct (Hquiet sub') as (w' & Hw' & Hq'); [by apply list_elem_of_further|].
      destruct (decide (sub = sub')) as [<-|Hne].
      * eexists. split; [simpl; apply list_lookup_insert_eq|].
        { rewrite !length_alter. by eapply lookup_lt_Some. }
        by split.
      * exists w'. split; [|done]. simpl.
        by rewrite list_lookup_insert_ne, !list_lookup_alter_ne.
    + simpl in Hlen. lia.
  - (* a stopped service *)
    assert (Map_get (subprocesses σ) id = Some None) as Hid.
    { rewrite Hσ. apply Map_get_elem; [done|]. rewrite Hsplit.
      apply elem_of_app. right. apply list_elem_of_here. }
    assert (getServices_from σ (Some (id, None) :: rest) (length visited) services =
            getServices_from σ rest (length (visited ++ [Some (id, None)]))
              (set_property id (VObj [("status", SERVICE_STATUS_STOPPED)]) services)) as ->.
    { cbn [getServices_from]. unfold getServiceInfo at 1. rewrite Hid.
      by rewrite length_app, Nat.add_1_r. }
    assert (status_replies (Some (id, None) :: rest) payloads = status_replies rest payloads)
      as -> by by destruct payloads.
    assert (status_infos (Some (id, None) :: rest) payloads =
            VObj [("status", SERVICE_STATUS_STOPPED)] :: status_infos rest payloads)
      as -> by by destruct payloads.
    apply (IH (visited ++ [Some (id, None)])); [|done..].
    by rewrite Hsplit, <- app_assoc.
  - (* an emptied slot *)
    assert (getServices_from σ (None :: rest) (length visited) services =
            getServices_from σ rest (length (visited ++ [None])) services) as ->.
    { cbn [getServices_from]. by rewrite length_app, Nat.add_1_r. }
    assert (status_replies (None :: rest) payloads = status_replies rest payloads)
      as -> by by destruct payloads.
    assert (status_infos (None :: rest) payloads = status_infos rest payloads)
      as -> by by destruct payloads.
    apply (IH (visited ++ [None])); [|done..].
    by rewrite Hsplit, <- app_assoc.
Qed.

Lemma status_infos_for m rest payloads :
  NoDup (Map_keys m) → (∀ e, e ∈ rest → e ∈ m) →
  length payloads = length (active_handles rest) →
  Forall2 (info_for m) (Map_keys rest) (status_infos rest payloads).
Proof.
  intros Hm. revert payloads. induction rest as [|[[id [sub|]]|] rest IH];
    intros payloads Hin Hlen.
  - constructor.
  - destruct payloads as [|payload payloads]; [done|]. constructor.
    + unfold info_for; simpl. rewrite (Map_get_elem m id (Some sub)); [by eexists|done|].
      apply Hin, list_elem_of_here.
    + apply IH; [|simpl in Hlen; lia]. intros e ?. by apply Hin, list_elem_of_further.
  - assert (status_infos (Some (id, None) :: rest) payloads =
            VObj [("status", SERVICE_STATUS_STOPPED)] :: status_infos rest payloads)
      as -> by by destruct payloads.
    constructor.
    + unfold info_for; simpl. rewrite (Map_get_elem m id None); [done..|].
      apply Hin, list_elem_of_here.
    + apply IH; [|done]. intros e ?. by apply Hin, list_elem_of_further.
  - assert (status_infos (None :: rest) payloads = status_infos rest payloads)
      as -> by by destruct payloads.
    apply IH; [|done]. intros e ?. by apply Hin, list_elem_of_further.
Qed.

Lemma getServices_replied σ payloads :
  NoDup (Map_keys (subprocesses σ)) → outstanding σ = [] →
  (∀ sub, sub ∈ active_handles (subprocesses σ) →
          ∃ w, workers σ !! sub = Some w ∧ quiet "getStatus" w) →
  length payloads = length (active_handles (subprocesses σ)) →
  (await σ (ECall GetServices :: status_replies (subprocesses σ) payloads)).2 =
  Settled (Resolved (VObj (assign [] (Map_keys (subprocesses σ))
                             (status_infos (subprocesses σ) payloads)))).
Proof.
  intros Hm Hout Hquiet Hlen. rewrite await_cons.
  by apply (getServices_from_resolves (subprocesses σ) (subprocesses σ) Hm [] []).
Qed.

(** C9, as amended. From a state with no outstanding request,
    [getServices()], when it resolves, resolves with the object built by
    assigning, in the iteration order of the map, to every id now present
    (active or tombstoned) the info [getServiceInfo] yields for it; and it
    does resolve once every running worker has answered [getStatus].  In
    that object an id other than [__proto__] is mapped to its info, an
    absent id has no property, and when the ids are plain keys the keys
    of the object are the ids of the map, in its order. *)
Theorem getServices_result σ :
  NoDup (Map_keys (subprocesses σ)) → outstanding σ = [] →
  let ids := Map_keys (subprocesses σ) in
  (∀ es σ' v,
     Forall no_call es →
     await σ (ECall GetServices :: es) = (σ', Settled (Resolved v)) →
     ∃ infos, Forall2 (info_for (subprocesses σ)) ids infos ∧
              v = VObj (assign [] ids infos)) ∧
  (∀ payloads,
     (∀ sub, sub ∈ active_handles (subprocesses σ) →
             ∃ w, workers σ !! sub = Some w ∧ quiet "getStatus" w) →
     length payloads = length (active_handles (subprocesses σ)) →
     Forall2 (info_for (subprocesses σ)) ids (status_infos (subprocesses σ) payloads) ∧
     (await σ (ECall GetServices :: status_replies (subprocesses σ) payloads)).2 =
     Settled (Resolved (VObj (assign [] ids (status_infos (subprocesses σ) payloads))))) ∧
  (∀ infos,
     length ids = length infos →
     (∀ i id info, ids !! i = Some id → infos !! i = Some info → id ≠ "__proto__" →
                   own_property id (assign [] ids infos) = Some info) ∧
     (∀ id, entry_of σ id = absent → own_property id (assign [] ids infos) = None) ∧
     (Forall plain_key ids → (assign [] ids infos).*1 = ids)).
Proof.
  intros Hm Hout ids. split_and!.
  - intros es σ' v Hes Hrun. by apply (getServices_resolved σ es σ' v).
  - intros payloads Hquiet Hlen. split.
    + by apply status_infos_for.
    + by apply getServices_replied.
  - intros infos Hlen. split_and!.
    + intros i id info Hid Hinfo Hproto. by apply (assign_lookup [] ids infos i).
    + intros id Hid%entry_of_absent%Map_get_None. by rewrite assign_other.
    + intros Hplain. by apply (assign_keys [] ids infos).
Qed.

End Properties.

(** * Runs of the manager, and the server *)

(** ** Lists *)

Lemma alter_same_sent (g : worker → worker) i (l : list worker) :
  (∀ w, sent (g w) = sent w) → sent <$> alter g i l = sent <$> l.
Proof.
  intros Hg. revert i; induction l as [|w l IH]; intros [|i]; csimpl; try done.
  - by rewrite Hg.
  - by rewrite IH.
Qed.

Lemma insert_alter_same {A} (f : A → A) i x (l : list A) :
  <[i:=x]> (alter f i l) = <[i:=x]> l.
Proof. revert i; induction l as [|y l IH]; intros [|i]; csimpl; by rewrite ?IH. Qed.

Lemma alter_insert_same {A} (f : A → A) i x (l : list A) :
  alter f i (<[i:=x]> l) = <[i:=f x]> l.
Proof. revert i; induction l as [|y l IH]; intros [|i]; csimpl; by rewrite ?IH. Qed.

Section Runs.

Context `{K : constants}.

(** ** Forks and queries *)

Lemma invoke_workers_length σ sub method args k :
  length (workers (invoke σ sub method args k)) = length (workers σ).
Proof. unfold invoke; simpl. apply length_alter. Qed.

Lemma run_frame_workers_length f σ r :
  length (workers (run_frame f σ r).1) = length (workers σ).
Proof. destruct f, r; simpl; try done. apply length_alter. Qed.

Lemma resume_workers_length k σ r :
  length (workers (resume k σ r).1) = length (workers σ).
Proof.
  revert σ r; induction k as [|f k IH]; intros σ r; simpl; [done|].
  pose proof (run_frame_workers_length f σ r) as Hf.
  destruct (run_frame f σ r) as [σ' [r'|sub method args k2]]; simpl in *; [|done].
  by rewrite IH.
Qed.

Lemma proceed_workers_length σ s : length (workers (proceed σ s).1) = length (workers σ).
Proof. destruct s; simpl; [done | apply length_alter]. Qed.

Lemma step_workers_length σ e :
  length (workers (step σ e).1) = length (workers σ) + forks σ e.
Proof.
  destruct e as [c|sub message|n]; cbn [step forks].
  - destruct (enter σ c) as [σ' s] eqn:Hc. rewrite proceed_workers_length.
    change σ' with (σ', s).1. rewrite <- Hc.
    destruct c as [id config| | | |]; simpl; try lia.
    unfold start, entry_of.
    destruct (Map_get (subprocesses σ) id) as [[sub|]|]; simpl;
      rewrite ?length_app; simpl; lia.
  - simpl. rewrite length_alter. lia.
  - rewrite Nat.add_0_r.
    destruct (outstanding σ !! n) as [req|]; [|done].
    destruct (workers σ !! request_sub req) as [w|]; [|done].
    destruct (consume _ _) as [[queue [s|]]|err]; [|done..].
    destruct (resume _ _ _) as [σ' s'] eqn:Hr. rewrite proceed_workers_length.
    change σ' with (σ', s').1. rewrite <- Hr, resume_workers_length. simpl.
    apply length_insert.
Qed.

(** X1. Processes are forked by [start] only, one for every call on an
    id that holds no handle, and the manager never drops a process: a
    handle that is valid stays valid along any run. *)
Theorem workers_grow_by_fork σ es :
  length (workers (run σ es)) = length (workers σ) + forked σ es ∧
  ∀ sub w, workers σ !! sub = Some w → is_Some (workers (run σ es) !! sub).
Proof.
  assert (length (workers (run σ es)) = length (workers σ) + forked σ es) as Hlen.
  { revert σ; induction es as [|e es IH]; intros σ; simpl; [lia|].
    fold (run (step σ e).1 es). rewrite IH, step_workers_length. lia. }
  split; [done|]. intros sub w Hw%lookup_lt_Some. apply lookup_lt_is_Some. lia.
Qed.

Lemma proceed_registry σ s :
  subprocesses (proceed σ s).1 = subprocesses σ ∧
  flags (proceed σ s).1 = flags σ ∧
  queues (proceed σ s).1 = queues σ.
Proof.
  destruct s; simpl; [done|]. split_and!; [done|apply invoke_flags|apply invoke_queues].
Qed.

Lemma resume_query k σ r : Forall query_frame k → (resume k σ r).1 = σ.
Proof.
  intros Hk. revert r. induction Hk as [|f k Hf _ IH]; intros r; simpl; [done|].
  destruct f, r; simpl in *; try done; try apply IH.
  all: by destruct (getServices_from _ _ _ _).
Qed.

(** X2. Every call but [start] leaves the map, the processes and the
    queues as they are when it is made, and the turn of a request of
    [getServiceInfo], [getServices] or [getMetrics] changes neither the
    map nor which processes are killed. *)
Theorem queries_read_only σ :
  (∀ c, ¬ is_start c →
     subprocesses (step σ (ECall c)).1 = subprocesses σ ∧
     flags (step σ (ECall c)).1 = flags σ ∧
     queues (step σ (ECall c)).1 = queues σ) ∧
  (∀ n req,
     outstanding σ !! n = Some req →
     Forall query_frame (request_then req) →
     subprocesses (step σ (ETurn n)).1 = subprocesses σ ∧
     flags (step σ (ETurn n)).1 = flags σ).
Proof.
  split.
  - intros c Hc. destruct c; simpl in Hc; [done|..]; cbn [step enter];
      apply proceed_registry.
  - intros n req Hreq Hk. cbn [step]. rewrite Hreq.
    destruct (workers σ !! request_sub req) as [w|] eqn:Hw; [|done].
    destruct (consume _ _) as [[queue [s|]]|err]; [|done..].
    destruct (resume _ _ _) as [σ' s'] eqn:Hr.
    assert (σ' = State (subprocesses σ)
                   (<[request_sub req:=Worker queue (sent w) (killed w)]> (workers σ))
                   (delete n (outstanding σ))) as ->.
    { change σ' with (σ', s').1. rewrite <- Hr. by apply resume_query. }
    destruct (proceed_registry
                (State (subprocesses σ)
                   (<[request_sub req:=Worker queue (sent w) (killed w)]> (workers σ))
                   (delete n (outstanding σ))) s') as (-> & -> & _).
    split; [done|]. unfold flags; simpl. rewrite list_fmap_insert. simpl.
    apply list_insert_id. by rewrite list_lookup_fmap, Hw.
Qed.

(** X3. On an id that runs, [getMetrics(id, type)] resolves at once
    with [undefined] and sends nothing exactly when [type] is none of the
    five kinds of the [switch]. *)
Theorem getMetrics_unknown_kind σ id sub type :
  entry_of σ id = active sub →
  step σ (ECall (GetMetrics id type)) = (σ, Settled (Resolved VUndefined)) ↔
  ∀ kind, kind ∈ metric_methods.*1 → type ≠ VStr kind.
Proof.
  intros Hid%entry_of_active. cbn [step enter]. unfold getMetrics. rewrite Hid.
  unfold strict_equals_string. split.
  - intros Hstep kind Hkind ->. simpl in Hkind.
    repeat (apply elem_of_cons in Hkind as [->|Hkind]; [done|]).
    by apply not_elem_of_nil in Hkind.
  - intros Hkind. destruct type as [| | | |s| |]; try done.
    assert (∀ kind, kind ∈ metric_methods.*1 → s ≠ kind) as Hs
      by (intros kind Hin ->; by apply (Hkind kind)).
    rewrite !bool_decide_eq_false_2; [done|apply Hs; compute_done..].
Qed.

(** ** Requests and their targets *)

Lemma run_frame_sents f σ r : sents (run_frame f σ r).1 = sents σ.
Proof. destruct f, r; simpl; try done. unfold sents; simpl. by apply alter_same_sent. Qed.

Lemma resume_sents k σ r : sents (resume k σ r).1 = sents σ.
Proof.
  revert σ r; induction k as [|f k IH]; intros σ r; simpl; [done|].
  pose proof (run_frame_sents f σ r) as Hf.
  destruct (run_frame f σ r) as [σ' [r'|sub method args k2]]; simpl in *; [|done].
  by rewrite IH.
Qed.

(** A request is written to a worker only together with the arming of
    its [consume] callback. *)
Lemma proceed_sents σ s sub l l' :
  sents σ !! sub = Some l → sents (proceed σ s).1 !! sub = Some l' →
  l' = l ∨
  ∃ method args k,
    l' = l ++ [Action method args] ∧
    last (outstanding (proceed σ s).1) = Some (Request sub method k).
Proof.
  destruct s as [r|sub' method args k]; simpl; [intros; left; congruence|].
  unfold sents; simpl. rewrite !list_lookup_fmap.
  destruct (decide (sub' = sub)) as [->|Hne].
  - rewrite list_lookup_alter_eq. destruct (workers σ !! sub) as [w|]; [|done].
    simpl. intros [= <-] [= <-]. right. exists method, args, k.
    split; [done | apply last_snoc].
  - rewrite list_lookup_alter_ne by done. intros; left; congruence.
Qed.

Lemma enter_sents σ c sub l :
  sents σ !! sub = Some l → sents (enter σ c).1 !! sub = Some l.
Proof.
  destruct c as [id config| | | |]; simpl; try done.
  unfold start. destruct (Map_get (subprocesses σ) id) as [[sub'|]|]; simpl; try done.
  all: unfold sents; simpl; rewrite fmap_app; by apply lookup_app_l_Some.
Qed.

Lemma step_sents σ e sub l l' :
  sents σ !! sub = Some l → sents (step σ e).1 !! sub = Some l' →
  l' = l ∨
  ∃ method args k,
    l' = l ++ [Action method args] ∧
    last (outstanding (step σ e).1) = Some (Request sub method k).
Proof.
  intros Hl. destruct e as [c|sub' message|n]; cbn [step].
  - destruct (enter σ c) as [σ' s] eqn:Hc. apply proceed_sents.
    change σ' with (σ', s).1. rewrite <- Hc. by apply enter_sents.
  - unfold sents; simpl. rewrite alter_same_sent by done.
    intros; left; unfold sents in *; congruence.
  - destruct (outstanding σ !! n) as [req|]; [|intros; left; simpl in *; congruence].
    destruct (workers σ !! request_sub req) as [w|] eqn:Hw;
      [|intros; left; simpl in *; congruence].
    destruct (consume _ _) as [[queue [s|]]|err];
      [|intros; left; unfold sents in *; simpl in *; congruence..].
    destruct (resume _ _ _) as [σ' s'] eqn:Hr. apply proceed_sents.
    change σ' with (σ', s').1. rewrite <- Hr, resume_sents.
    unfold sents; simpl. rewrite list_fmap_insert. simpl.
    rewrite list_insert_id; [done|]. by rewrite list_lookup_fmap, Hw.
Qed.

(** The handle a call or a continuation invokes is in the map. *)
Lemma getServices_from_target σ entries next services sub method args k :
  getServices_from σ entries next services = Await sub method args k →
  ∃ id, entry_of σ id = active sub.
Proof.
  revert next services; induction entries as [|[[id v]|] entries IH];
    intros next services; simpl; [done| |apply IH].
  unfold getServiceInfo. destruct (Map_get (subprocesses σ) id) as [[sub'|]|] eqn:Hid.
  - intros [= <- _ _ _]. exists id. by apply entry_of_active.
  - apply IH.
  - apply IH.
Qed.

Lemma enter_target σ c σ' sub method args k :
  enter σ c = (σ', Await sub method args k) → ∃ id, entry_of σ' id = active sub.
Proof.
  destruct c as [id config|id| |id|id type]; simpl.
  - unfold start. destruct (Map_get (subprocesses σ) id) as [[sub'|]|] eqn:Hid; simpl.
    + intros [= <- <- _ _ _]. exists id. by apply entry_of_active.
    + intros [= <- <- _ _ _]. exists id. apply entry_of_active. simpl.
      apply Map_get_set_eq.
    + intros [= <- <- _ _ _]. exists id. apply entry_of_active. simpl.
      apply Map_get_set_eq.
  - unfold stop. destruct (Map_get (subprocesses σ) id) as [[sub'|]|] eqn:Hid; [|done..].
    intros [= <- <- _ _ _]. exists id. by apply entry_of_active.
  - intros [= <- Hs]. by eapply getServices_from_target.
  - unfold getServiceInfo.
    destruct (Map_get (subprocesses σ) id) as [[sub'|]|] eqn:Hid; [|done..].
    intros [= <- <- _ _ _]. exists id. by apply entry_of_active.
  - unfold getMetrics.
    destruct (Map_get (subprocesses σ) id) as [[sub'|]|] eqn:Hid; [|done..].
    repeat (destruct (strict_equals_string _ _);
            [intros [= <- <- _ _ _]; exists id; by apply entry_of_active|]).
    done.
Qed.

Lemma resume_target k σ r σ' sub method args k' :
  resume k σ r = (σ', Await sub method args k') → ∃ id, entry_of σ' id = active sub.
Proof.
  revert σ r; induction k as [|f k IH]; intros σ r; simpl; [done|].
  destruct (run_frame f σ r) as [σ1 [r1|sub1 method1 args1 k1]] eqn:Hf; [by apply IH|].
  intros [= <- <- _ _ _]. destruct f, r; simpl in Hf; try done.
  injection Hf as <- Hs. by eapply getServices_from_target.
Qed.

Lemma proceed_entry σ s id : entry_of (proceed σ s).1 id = entry_of σ id.
Proof. by destruct s. Qed.

Lemma enter_outstanding σ c : outstanding (enter σ c).1 = outstanding σ.
Proof.
  destruct c as [id config| | | |]; simpl; try done.
  unfold start. by destruct (Map_get (subprocesses σ) id) as [[sub'|]|].
Qed.

Lemma step_targets σ e :
  requests_ok σ → awaited σ e → targets_live σ → targets_live (step σ e).1.
Proof.
  intros Hreq Haw Hlive.
  assert (∀ σ0 s,
            outstanding σ0 = [] →
            (∀ sub method args k, s = Await sub method args k →
                                  ∃ id, entry_of σ0 id = active sub) →
            targets_live (proceed σ0 s).1) as Hproceed.
  { intros σ0 [r|sub method args k] Hout Hs req; simpl; rewrite Hout; simpl.
    - by intros ?%not_elem_of_nil.
    - intros ->%list_elem_of_singleton. simpl. by apply (Hs sub method args k). }
  destruct e as [c|sub message|n]; cbn [step].
  - destruct (enter σ c) as [σ' s] eqn:Hc. apply Hproceed.
    + change σ' with (σ', s).1. rewrite <- Hc. by rewrite enter_outstanding.
    + intros sub method args k ->. by eapply enter_target.
  - done.
  - destruct (outstanding σ !! n) as [req|] eqn:Hn; [|done].
    destruct (workers σ !! request_sub req) as [w|] eqn:Hw; [|done].
    destruct Hreq as [Hout|(req' & Hout & _)]; [by rewrite Hout in Hn|].
    rewrite Hout in Hn. destruct n as [|n]; [|done].
    destruct (consume _ _) as [[queue [s|]]|err].
    + destruct (resume _ _ _) as [σ' s'] eqn:Hr. apply Hproceed.
      * change σ' with (σ', s').1. rewrite <- Hr, resume_outstanding. simpl.
        by rewrite Hout.
      * intros sub method args k ->. by eapply resume_target.
    + done.
    + intros req0. simpl. rewrite Hout. by intros ?%not_elem_of_nil.
Qed.

Lemma sequential_targets σ : sequential σ → targets_live σ.
Proof.
  induction 1 as [|σ e Hseq IH Haw].
  - intros req. simpl. by intros ?%not_elem_of_nil.
  - apply step_targets; [|done..]. by apply sequential_invariant.
Qed.

(** X4. In a run in which every call is awaited, no request is written
    to a process that was killed. *)
Theorem no_request_to_killed_worker σ e sub w w' :
  sequential σ → awaited σ e →
  workers σ !! sub = Some w → workers (step σ e).1 !! sub = Some w' →
  killed w' = true → sent w' = sent w.
Proof.
  intros Hseq Haw Hw Hw' Hkilled.
  assert (sequential (step σ e).1) as Hseq' by by constructor.
  destruct (step_sents σ e sub (sent w) (sent w'))
    as [?|(method & args & k & _ & Hlast)]; [| |done|].
  - unfold sents. by rewrite list_lookup_fmap, Hw.
  - unfold sents. by rewrite list_lookup_fmap, Hw'.
  - destruct (sequential_targets _ Hseq' (Request sub method k)) as [id Hid].
    { by apply last_Some_elem_of. }
    destruct (sequential_invariant _ Hseq') as [Hok _].
    pose proof (registry_live _ Hok id sub Hid) as Hflag. unfold flags in Hflag.
    rewrite list_lookup_fmap, Hw' in Hflag. simpl in Hflag. congruence.
Qed.

(** ** Messages the scan cannot read *)

Lemma claimed_by_readable method message s :
  claimed_by method message = Some s → readable message.
Proof.
  unfold claimed_by, message_type, readable. destruct message as [| | | | | |o]; try done.
  by destruct (own_property "type" o) as [[]|].
Qed.

Lemma scanQueue_from_cons_readable k message rest method :
  readable message →
  scanQueue_from k (message :: rest) method =
  match claimed_by method message with
  | Some s => Normal (Found k s)
  | None => scanQueue_from (S k) rest method
  end.
Proof.
  intros Hr. unfold readable in Hr. destruct message as [| | | | | |o]; try done.
  destruct (own_property "type" o) as [[| | | |t|l|o']|] eqn:Ho; try done.
  - apply (scanQueue_from_cons_wf _ _ _ _ t). unfold message_type. by rewrite Ho.
  - unfold claimed_by, message_type. rewrite Ho. simpl. rewrite Ho. simpl.
    by destruct (bool_decide _).
Qed.

Lemma scanQueue_from_cons_unreadable k message rest method :
  ¬ readable message → scanQueue_from k (message :: rest) method = Throw TypeError.
Proof.
  unfold readable. destruct message as [| | | | |l|o]; simpl; try done.
  destruct (own_property "type" o) as [[| | | |t|l|o']|] eqn:Ho; simpl; try done.
  all: by intros [].
Qed.

Lemma readable_dec message : {readable message} + {¬ readable message}.
Proof.
  unfold readable. destruct message as [| | | | | |o]; try (right; tauto).
  destruct (own_property "type" o) as [[]|]; (by left) || (right; tauto).
Qed.

Lemma scanQueue_from_throws k queue method e :
  scanQueue_from k queue method = Throw e ↔
  e = TypeError ∧
  ∃ i message,
    queue !! i = Some message ∧ ¬ readable message ∧
    ∀ j earlier, j < i → queue !! j = Some earlier →
                 readable earlier ∧ claimed_by method earlier = None.
Proof.
  revert k; induction queue as [|message rest IH]; intros k.
  { split; [done|]. by intros (_ & i & m & ? & _). }
  destruct (readable_dec message) as [Hr|Hr].
  - rewrite scanQueue_from_cons_readable by done.
    destruct (claimed_by method message) as [s|] eqn:Hc.
    + split; [done|]. intros (_ & [|i] & m & Hm & Hnr & Hlt); simplify_eq/=; [done|].
      destruct (Hlt 0 message) as [_ Hnone]; [lia|done|]. congruence.
    + rewrite IH. split.
      * intros (-> & i & m & Hm & Hnr & Hlt). split; [done|].
        exists (S i), m. split_and!; [done..|].
        intros [|j] earlier Hj He; simplify_eq/=; [done|]. apply (Hlt j); [lia|done].
      * intros (-> & [|i] & m & Hm & Hnr & Hlt); simplify_eq/=; [done|].
        split; [done|]. exists i, m. split_and!; [done..|].
        intros j earlier Hj He. apply (Hlt (S j)); [lia|done].
  - rewrite scanQueue_from_cons_unreadable by done. split.
    + intros [= <-]. split; [done|]. exists 0, message. split_and!; [done..|].
      intros j ? Hj. lia.
    + intros (-> & _). done.
Qed.

(** X5. The scan throws iff it meets a message it cannot read before
    any reply to its request; what it throws is a [TypeError].  The
    [consume] callback of that turn dies with it: the request is no
    longer outstanding, the queue keeps the message, and the promise is
    left unsettled. *)
Theorem scanQueue_throws queue method e :
  (scanQueue queue method = Throw e ↔
   e = TypeError ∧
   ∃ i message,
     queue !! i = Some message ∧ ¬ readable message ∧
     ∀ j earlier, j < i → queue !! j = Some earlier →
                  readable earlier ∧ claimed_by method earlier = None) ∧
  (scanQueue queue method = Throw e ↔ consume queue method = Throw e) ∧
  (∀ σ n sub k w,
     outstanding σ !! n = Some (Request sub method k) →
     workers σ !! sub = Some w → messageQueue w = queue →
     scanQueue queue method = Throw e →
     step σ (ETurn n) =
     (State (subprocesses σ) (workers σ) (delete n (outstanding σ)), Uncaught e)).
Proof.
  split_and!.
  - apply scanQueue_from_throws.
  - unfold consume. destruct (scanQueue queue method) as [[i s|]|e']; simpl;
      split; (done || by intros [= ->]).
  - intros σ n sub k w Hreq Hw <- Hs. simpl. rewrite Hreq. simpl. rewrite Hw.
    unfold consume. by rewrite Hs.
Qed.

(** A message without a string [type] answers no request. *)
Lemma consume_keeps queue method q' o message :
  consume queue method = Normal (q', o) →
  message ∈ queue → message_type message = None → message ∈ q'.
Proof.
  intros Hc Hin Ht. apply consume_inv in Hc. destruct o as [s|]; [|by destruct Hc as [_ ->]].
  destruct Hc as (i & Hs & ->).
  apply scanQueue_from_found in Hs as (j & -> & (claimed & Hj & Hc) & _). simpl.
  apply claimed_by_well_formed in Hc as [t Hc].
  apply list_elem_of_lookup in Hin as [i Hi].
  destruct (Nat.lt_trichotomy i j) as [Hlt|[->|Hlt]].
  - apply (list_elem_of_lookup_2 _ i). by rewrite list_lookup_delete_lt.
  - congruence.
  - destruct i as [|i]; [lia|]. apply (list_elem_of_lookup_2 _ i).
    rewrite list_lookup_delete_ge by lia. done.
Qed.

Lemma step_queued σ e sub message :
  queued σ sub message → message_type message = None →
  queued (step σ e).1 sub message.
Proof.
  intros (queue & Hq & Hin) Ht. unfold queued.
  destruct e as [c|sub' m|n]; cbn [step].
  - destruct (enter σ c) as [σ' s] eqn:Hc. rewrite proceed_queues.
    change σ' with (σ', s).1. rewrite <- Hc. exists queue. split; [|done].
    destruct c as [id config| | | |]; simpl; try done.
    unfold start. destruct (Map_get (subprocesses σ) id) as [[sub''|]|]; simpl; try done.
    all: unfold queues; simpl; rewrite fmap_app; by apply lookup_app_l_Some.
  - unfold queues in *. simpl. rewrite list_lookup_fmap in *.
    destruct (decide (sub' = sub)) as [->|Hne].
    + rewrite list_lookup_alter_eq. destruct (workers σ !! sub) as [w|]; [|done].
      simplify_eq/=. eexists. split; [done|]. unfold on_message.
      case_bool_decide; [done|]. apply elem_of_app. by left.
    + rewrite list_lookup_alter_ne by done. eauto.
  - destruct (outstanding σ !! n) as [req|]; [|by exists queue].
    destruct (workers σ !! request_sub req) as [w|] eqn:Hw; [|by exists queue].
    destruct (consume _ _) as [[q' [s|]]|err] eqn:Hc; [|by exists queue..].
    destruct (resume _ _ _) as [σ' s'] eqn:Hr. rewrite proceed_queues.
    change σ' with (σ', s').1. rewrite <- Hr, resume_queues.
    unfold queues in *. simpl. rewrite list_fmap_insert. simpl.
    destruct (decide (request_sub req = sub)) as [Heq|Hne].
    + rewrite Heq in *. rewrite list_lookup_fmap, Hw in Hq. simplify_eq/=.
      exists q'. split.
      * apply list_lookup_insert_eq. rewrite length_fmap. by eapply lookup_lt_Some.
      * by eapply consume_keeps.
    + rewrite list_lookup_insert_ne by done. eauto.
Qed.

(** X6. A queued message without a string [type] is never taken out of
    its queue, whatever happens afterwards. *)
Theorem untyped_message_stays σ es sub message :
  queued σ sub message → message_type message = None →
  queued (run σ es) sub message.
Proof.
  revert σ; induction es as [|e es IH]; intros σ Hq Ht; [done|].
  simpl. apply IH; [|done]. by apply step_queued.
Qed.

(** ** Replies that come, and replies that do not *)

Lemma consume_quiet method w :
  quiet method w → consume (messageQueue w) method = Normal (messageQueue w, None).
Proof.
  intros [Hwf Hnone]. unfold consume, scanQueue.
  destruct (scanQueue_from_well_formed 0 (messageQueue w) method Hwf)
    as [(j & s & [(m & Hm & Hc) _] & _)|[_ ->]]; [|done].
  rewrite Forall_lookup in Hnone. rewrite (Hnone _ _ Hm) in Hc. done.
Qed.

Lemma step_unanswered σ req w e :
  outstanding σ = [req] → workers σ !! request_sub req = Some w →
  quiet (request_type req) w → unanswered req e →
  (step σ e).2 = Pending ∧
  outstanding (step σ e).1 = [req] ∧
  subprocesses (step σ e).1 = subprocesses σ ∧
  ∃ w', workers (step σ e).1 !! request_sub req = Some w' ∧ quiet (request_type req) w'.
Proof.
  intros Hout Hw Hq He. destruct e as [c|sub message|n]; [done| |].
  - simpl. split_and!; [done..|]. destruct (decide (sub = request_sub req)) as [->|Hne].
    + rewrite list_lookup_alter_eq, Hw. simpl. eexists. split; [done|].
      unfold on_message. case_bool_decide as Ht; [done|].
      destruct (decide (typeof message = "object")) as [Ht'|Ht']; [|done].
      destruct (He eq_refl Ht') as [Hwf Hnone].
      destruct Hq as [Hq1 Hq2]. split; simpl; apply Forall_app; by repeat constructor.
    + rewrite list_lookup_alter_ne by done. eauto.
  - simpl. rewrite Hout. destruct n as [|n]; simpl; [|split_and!; by eauto].
    rewrite Hw, (consume_quiet _ _ Hq). simpl. split_and!; by eauto.
Qed.

(** X7. A request that gets no reply stays outstanding and its call
    stays pending, however many turns the loop takes: [send] has no
    timeout and no turn of [consume] gives up. *)
Theorem no_reply_no_settlement σ req w es :
  outstanding σ = [req] → workers σ !! request_sub req = Some w →
  quiet (request_type req) w → Forall (unanswered req) es →
  await σ es = (run σ es, Pending) ∧
  outstanding (run σ es) = [req] ∧
  subprocesses (run σ es) = subprocesses σ.
Proof.
  intros Hout Hw Hq Hes. revert σ w Hout Hw Hq.
  induction Hes as [|e es He _ IH]; intros σ w Hout Hw Hq; [done|].
  destruct (step_unanswered σ req w e Hout Hw Hq He) as (Hr & Hout' & Hm & w' & Hw' & Hq').
  destruct (IH _ _ Hout' Hw' Hq') as (Ha & Ho & Hs).
  change (run σ (e :: es)) with (run (step σ e).1 es). cbn [await].
  destruct (step σ e) as [σ' r]; cbn [fst snd] in *. subst r.
  split_and!; [done..|]. by rewrite Hs.
Qed.

(** The reply to a request arrives behind a queue that holds nothing for
    it, and the turn of the request is taken. *)
Lemma invoke_replied σ sub method args k w message s :
  workers σ !! sub = Some w → quiet method w → claimed_by method message = Some s →
  await (invoke σ sub method args k) [EMessage sub message; ETurn (length (outstanding σ))] =
  let '(σ', s') :=
    resume k (State (subprocesses σ)
                    (<[sub := Worker (messageQueue w) (sent w ++ [Action method args])
                                     (killed w)]> (workers σ))
                    (outstanding σ))
           (settle s) in
  proceed σ' s'.
Proof.
  intros Hw [Hwf Hnone] Hc.
  assert (typeof message = "object") as Ht.
  { apply claimed_by_well_formed in Hc as [t Hc]. unfold message_type in Hc.
    by destruct message. }
  erewrite await_pending by done. rewrite await_last.
  set (σ2 := State _ _ _).
  assert (outstanding σ2 !! length (outstanding σ) = Some (Request sub method k)) as Hreq.
  { simpl. by apply list_lookup_middle. }
  assert (workers σ2 !! sub =
          Some (Worker (messageQueue w ++ [message]) (sent w ++ [Action method args])
                       (killed w))) as Hw2.
  { simpl. rewrite !list_lookup_alter_eq, Hw. simpl. unfold on_message.
    by rewrite bool_decide_eq_false_2 by (by intros ?). }
  rewrite (step_turn _ _ _ _ (messageQueue w) s Hreq Hw2) by (by apply consume_snoc).
  subst σ2. simpl. by rewrite delete_middle, app_nil_r, !insert_alter_same.
Qed.

(** X8. [start(id, config)] on an id that does not run forks a worker,
    which starts with an empty queue, so the call resolves with
    [undefined] as soon as that worker answers [start/done], whatever the
    payload; the id is then active with the new handle, appended to the
    map when it was absent and in its old place when it was tombstoned.
    On an id that runs no worker is forked: the request goes to the worker
    of the id. *)
Theorem start_resolves σ id config payload :
  let n := length (workers σ) in
  let replied sub :=
    [ECall (Start id config); EMessage sub (reply "start/done" payload);
     ETurn (length (outstanding σ))] in
  (entry_of σ id = absent ∨ entry_of σ id = tombstoned →
   await σ (replied n) =
   (State (Map_set (subprocesses σ) id (Some n))
          (workers σ ++ [Worker [] [Action "start" config] false])
          (outstanding σ),
    Settled (Resolved VUndefined))) ∧
  (entry_of σ id = absent →
   Map_keys (Map_set (subprocesses σ) id (Some n)) = Map_keys (subprocesses σ) ++ [id]) ∧
  (entry_of σ id = tombstoned →
   Map_keys (Map_set (subprocesses σ) id (Some n)) = Map_keys (subprocesses σ)) ∧
  (∀ sub w,
     entry_of σ id = active sub → workers σ !! sub = Some w → quiet "start" w →
     await σ (replied sub) =
     (State (subprocesses σ)
            (<[sub := Worker (messageQueue w) (sent w ++ [Action "start" config])
                             (killed w)]> (workers σ))
            (outstanding σ),
      Settled (Resolved VUndefined))).
Proof.
  intros n replied. split_and!.
  - intros Hid. unfold replied.
    set (σ1 := State (Map_set (subprocesses σ) id (Some n))
                     (workers σ ++ [Worker [] [] false]) (outstanding σ)).
    assert (step σ (ECall (Start id config)) =
            (invoke σ1 n "start" config [start_catch id], Pending)) as Hcall.
    { cbn [step enter]. unfold start.
      by destruct Hid as [Hid%entry_of_absent|Hid%entry_of_tombstoned]; rewrite Hid. }
    rewrite (await_pending _ _ _ _ Hcall).
    rewrite (invoke_replied σ1 n "start" config [start_catch id] (Worker [] [] false)
               _ (Resolve payload)).
    + simpl. f_equal. f_equal. unfold n.
      rewrite <- (Nat.add_0_r (length (workers σ))). by rewrite insert_app_r.
    + simpl. by apply list_lookup_middle.
    + split; constructor.
    + apply (claimed_by_reply_done "start").
  - intros Hid%entry_of_absent%Map_get_None. rewrite Map_keys_set. by rewrite decide_False.
  - intros Hid%entry_of_tombstoned. rewrite Map_keys_set. rewrite decide_True; [done|].
    destruct (decide (id ∈ Map_keys (subprocesses σ))) as [|Hn%Map_get_None]; [done|].
    congruence.
  - intros sub w Hid Hw Hq. unfold replied.
    rewrite (await_pending _ _ _ _ (step_start_reuse σ id config sub Hid)).
    by rewrite (invoke_replied σ sub "start" config [start_catch id] w _ (Resolve payload))
      by (done || apply (claimed_by_reply_done "start")).
Qed.

(** X9. [stop(id)] on an id that runs resolves with [undefined] once
    the worker answers [stop/done]; it kills the process of that worker
    and no other, leaves [null] under the id in its place in the map, and
    touches no other id. *)
Theorem stop_resolves σ id sub w payload :
  entry_of σ id = active sub → workers σ !! sub = Some w → quiet "stop" w →
  let σ' :=
    State (Map_set (subprocesses σ) id None)
          (<[sub := Worker (messageQueue w) (sent w ++ [Action "stop" VUndefined]) true]>
             (workers σ))
          (outstanding σ) in
  await σ [ECall (Stop id); EMessage sub (reply "stop/done" payload);
           ETurn (length (outstanding σ))] =
  (σ', Settled (Resolved VUndefined)) ∧
  Map_keys (subprocesses σ') = Map_keys (subprocesses σ) ∧
  flags σ' = <[sub := true]> (flags σ) ∧
  ∀ id', id' ≠ id → entry_of σ' id' = entry_of σ id'.
Proof.
  intros Hid Hw Hq σ'. split_and!.
  - assert (step σ (ECall (Stop id)) =
            (invoke σ sub "stop" VUndefined [stop_then id sub], Pending)) as Hcall.
    { apply entry_of_active in Hid. cbn [step enter]. unfold stop. by rewrite Hid. }
    rewrite (await_pending _ _ _ _ Hcall).
    rewrite (invoke_replied σ sub "stop" VUndefined [stop_then id sub] w _ (Resolve payload))
      by (done || apply (claimed_by_reply_done "stop")).
    simpl. by rewrite alter_insert_same.
  - simpl. rewrite Map_keys_set. rewrite decide_True; [done|].
    apply entry_of_active in Hid.
    destruct (decide (id ∈ Map_keys (subprocesses σ))) as [|Hn%Map_get_None]; [done|].
    congruence.
  - unfold flags. simpl. by rewrite list_fmap_insert.
  - intros id' Hne. unfold entry_of. simpl. by rewrite Map_get_set_ne.
Qed.

(** ** The process of a failed start *)

Lemma run_frame_entry f σ r id sub :
  NoDup (Map_keys (subprocesses σ)) →
  entry_of (run_frame f σ r).1 id = active sub → entry_of σ id = active sub.
Proof.
  intros Hm. destruct f as [id'|id' sub'| |], r; simpl; try done.
  - destruct (decide (id' = id)) as [->|Hne].
    + rewrite (entry_of_delete_eq σ); [done..|]. done.
    + by rewrite (entry_of_delete_ne σ _ id' id).
  - destruct (decide (id' = id)) as [->|Hne].
    + unfold entry_of. simpl. by rewrite Map_get_set_eq.
    + unfold entry_of. simpl. by rewrite Map_get_set_ne.
Qed.

Lemma resume_entry k σ r id sub :
  NoDup (Map_keys (subprocesses σ)) →
  entry_of (resume k σ r).1 id = active sub → entry_of σ id = active sub.
Proof.
  revert σ r; induction k as [|f k IH]; intros σ r Hm; simpl; [done|].
  pose proof (run_frame_keys f σ r Hm) as Hf.
  pose proof (run_frame_entry f σ r id sub Hm) as He.
  destruct (run_frame f σ r) as [σ' [r'|sub' method args k2]]; simpl in *; [|done].
  intros Hid. apply He. by apply (IH σ' r').
Qed.

(** A handle enters the map only with the process forked for it. *)
Lemma step_entry σ e id sub :
  NoDup (Map_keys (subprocesses σ)) →
  entry_of (step σ e).1 id = active sub →
  entry_of σ id = active sub ∨ sub = length (workers σ).
Proof.
  intros Hm. destruct e as [c|sub' message|n]; cbn [step].
  - destruct (enter σ c) as [σ' s] eqn:Hc. rewrite proceed_entry.
    change σ' with (σ', s).1. rewrite <- Hc.
    destruct c as [id' config| | | |]; simpl; auto.
    unfold start. destruct (Map_get (subprocesses σ) id') as [[sub''|]|] eqn:Hid'; simpl; auto.
    all: destruct (decide (id' = id)) as [->|Hne];
      [unfold entry_of; simpl; rewrite Map_get_set_eq; intros [= <-]; by right
      |unfold entry_of; simpl; rewrite Map_get_set_ne by done; by left].
  - auto.
  - destruct (outstanding σ !! n) as [req|]; [|by auto].
    destruct (workers σ !! request_sub req) as [w|]; [|by auto].
    destruct (consume _ _) as [[queue [s|]]|err]; [|by auto..].
    destruct (resume _ _ _) as [σ' s'] eqn:Hr. rewrite proceed_entry.
    change σ' with (σ', s').1. rewrite <- Hr. intros Hid%resume_entry; [|done].
    by left.
Qed.

Lemma resume_flags_spared k σ r sub :
  Forall (spares sub) k → flags (resume k σ r).1 !! sub = flags σ !! sub.
Proof.
  intros Hk. revert σ r; induction Hk as [|f k Hf _ IH]; intros σ r; simpl; [done|].
  assert (flags (run_frame f σ r).1 !! sub = flags σ !! sub) as Hflags.
  { destruct f as [|id' sub'| |], r; simpl; try done.
    unfold flags. simpl. by apply (kill_flags_ne σ sub' sub). }
  destruct (run_frame f σ r) as [σ' [r'|sub' method args k2]]; simpl in *; [|done].
  by rewrite IH.
Qed.

Lemma step_orphaned σ e sub :
  sequential σ → awaited σ e → orphaned σ sub →
  orphaned (step σ e).1 sub ∧
  flags (step σ e).1 !! sub = flags σ !! sub ∧
  sents (step σ e).1 !! sub = sents σ !! sub.
Proof.
  intros Hseq Haw [Hlt Hno].
  assert (sequential (step σ e).1) as Hseq' by by constructor.
  destruct (sequential_invariant _ Hseq) as [Hok Hreq].
  assert (orphaned (step σ e).1 sub) as Horphan.
  { split.
    - rewrite step_workers_length. lia.
    - intros id [Hid| ->]%step_entry; [by apply (Hno id)|lia|apply Hok]. }
  split_and!; [done| |].
  - destruct e as [c|sub' message|n]; cbn [step].
    + destruct (enter σ c) as [σ' s] eqn:Hc.
      destruct (proceed_registry σ' s) as (_ & -> & _).
      change σ' with (σ', s).1. rewrite <- Hc.
      destruct c as [id' config| | | |]; simpl; try done.
      unfold start. destruct (Map_get (subprocesses σ) id') as [[sub''|]|]; simpl; try done.
      all: unfold flags; simpl; rewrite fmap_app; apply lookup_app_l;
        by rewrite length_fmap.
    + unfold flags. simpl. by rewrite alter_same_flag.
    + destruct (outstanding σ !! n) as [req|] eqn:Hn; [|done].
      destruct (workers σ !! request_sub req) as [w|] eqn:Hw; [|done].
      destruct (consume _ _) as [[queue [s|]]|err]; [|done..].
      destruct (resume _ _ _) as [σ' s'] eqn:Hr.
      destruct (proceed_registry σ' s') as (_ & -> & _).
      change σ' with (σ', s').1. rewrite <- Hr.
      rewrite resume_flags_spared.
      * unfold flags. simpl. rewrite list_fmap_insert. simpl.
        rewrite list_insert_id; [done|]. by rewrite list_lookup_fmap, Hw.
      * destruct Hreq as [Hout|(req' & Hout & Hreq)]; [by rewrite Hout in Hn|].
        rewrite Hout in Hn. destruct n as [|n]; [|done]. simplify_eq/=.
        unfold request_ok in Hreq.
        destruct (request_then req) as [|f1 [|f2 [|f3 k]]].
        -- constructor.
        -- destruct f1 as [|id' sub'| |]; repeat constructor.
           destruct Hreq as [-> Hid]. intros <-. by apply (Hno id').
        -- destruct f1, f2; try done. by repeat constructor.
        -- by destruct f1, f2.
  - destruct Horphan as [Hlt' Hno'].
    destruct (lookup_lt_is_Some_2 (sents σ) sub) as [l Hl].
    { unfold sents. by rewrite length_fmap. }
    destruct (lookup_lt_is_Some_2 (sents (step σ e).1) sub) as [l' Hl'].
    { unfold sents. by rewrite length_fmap. }
    rewrite Hl, Hl'.
    destruct (step_sents σ e sub l l' Hl Hl') as [->|(method & args & k & _ & Hlast)];
      [done|].
    destruct (sequential_targets _ Hseq' (Request sub method k)) as [id Hid].
    { by apply last_Some_elem_of. }
    by destruct (Hno' id).
Qed.

Lemma run_orphaned σ es sub :
  sequential σ → all_awaited σ es → orphaned σ sub →
  orphaned (run σ es) sub ∧
  flags (run σ es) !! sub = flags σ !! sub ∧
  sents (run σ es) !! sub = sents σ !! sub.
Proof.
  revert σ; induction es as [|e es IH]; intros σ Hseq Hes Ho; [done|].
  destruct Hes as [Haw Hes].
  destruct (step_orphaned σ e sub Hseq Haw Ho) as (Ho' & Hf & Hs).
  destruct (IH (step σ e).1) as (Ho'' & Hf' & Hs'); [by constructor|done..|].
  change (run σ (e :: es)) with (run (step σ e).1 es).
  split_and!; [done|by rewrite Hf'|by rewrite Hs'].
Qed.

(** X10. A start whose handshake fails gives up the handle and leaves
    the process it forked running: in a run in which every call is
    awaited, no id refers to that process ever again, it is never killed,
    and no further request is written to it. *)
Theorem failed_start_orphans σ id sub w q' err es :
  sequential σ →
  outstanding σ !! 0 = Some (Request sub "start" [start_catch id]) →
  workers σ !! sub = Some w →
  consume (messageQueue w) "start" = Normal (q', Some (Reject err)) →
  all_awaited (step σ (ETurn 0)).1 es →
  let σ' := run (step σ (ETurn 0)).1 es in
  (∀ id', entry_of σ' id' ≠ active sub) ∧
  ∃ w', workers σ' !! sub = Some w' ∧ killed w' = false ∧ sent w' = sent w.
Proof.
  intros Hseq Hn Hw Hc Hes.
  destruct (sequential_invariant _ Hseq) as [Hok Hreq].
  assert (entry_of σ id = active sub) as Hid.
  { destruct Hreq as [Hout|(req & Hout & Hreq)]; [by rewrite Hout in Hn|].
    rewrite Hout in Hn. by simplify_eq/=. }
  pose proof (registry_live _ Hok id sub Hid) as Hlive.
  assert (step σ (ETurn 0) =
          (State (Map_delete (subprocesses σ) id)
                 (<[sub := Worker q' (sent w) (killed w)]> (workers σ))
                 (delete 0 (outstanding σ)),
           Settled (Rejected err))) as Hstep.
  { by rewrite (step_turn _ _ _ _ _ _ Hn Hw Hc). }
  assert (sequential (step σ (ETurn 0)).1) as Hseq' by by constructor.
  assert (orphaned (step σ (ETurn 0)).1 sub) as Horphan.
  { split.
    - rewrite step_workers_length. apply lookup_lt_Some in Hw. lia.
    - rewrite Hstep. intros id' Hid'.
      destruct (decide (id = id')) as [<-|Hne].
      + rewrite (entry_of_delete_eq σ) in Hid'; [done|done|apply Hok].
      + rewrite (entry_of_delete_ne σ _ id id') in Hid' by done.
        by apply Hne, (registry_inj _ Hok id id' sub). }
  destruct (run_orphaned _ es sub Hseq' Hes Horphan) as ([_ Hno] & Hflags & Hsents).
  split; [done|].
  rewrite Hstep in Hflags, Hsents. unfold flags, sents in Hflags, Hsents, Hlive.
  rewrite Hstep. cbn [fst workers] in *.
  rewrite !list_lookup_fmap in Hflags. rewrite !list_lookup_fmap in Hsents.
  rewrite list_lookup_insert_eq in Hflags, Hsents by by eapply lookup_lt_Some.
  rewrite list_lookup_fmap, Hw in Hlive.
  destruct (workers (run _ es) !! sub) as [w'|]; [|done]. exists w'.
  simplify_eq/=. split_and!; [done|congruence..].
Qed.

(** ** The order of a queue *)

Lemma on_message_app queue message :
  on_message queue message = queue ++ on_message [] message.
Proof. unfold on_message. case_bool_decide; [by rewrite app_nil_r | done]. Qed.

Lemma step_queue_of σ e sub :
  queue_of (step σ e).1 sub `sublist_of` queue_of σ sub ++ arrivals sub [e].
Proof.
  unfold queue_of. destruct e as [c|sub' message|n]; cbn [step arrivals];
    rewrite ?app_nil_r.
  - destruct (enter σ c) as [σ' s] eqn:Hc. rewrite proceed_queues.
    change σ' with (σ', s).1. rewrite <- Hc.
    destruct c as [id config| | | |]; simpl; try done.
    unfold start. destruct (Map_get (subprocesses σ) id) as [[sub''|]|]; simpl; try done.
    all: unfold queues; simpl; rewrite fmap_app; simpl;
      destruct (decide (sub < length (messageQueue <$> workers σ))) as [Hlt|Hge];
      [by rewrite lookup_app_l|].
    all: rewrite (lookup_ge_None_2 (messageQueue <$> workers σ)) by lia; simpl;
      rewrite lookup_app_r by lia;
      by destruct (sub - length (messageQueue <$> workers σ)) as [|[|?]].
  - unfold queues. simpl. rewrite !list_lookup_fmap.
    destruct (decide (sub' = sub)) as [->|Hne].
    + rewrite list_lookup_alter_eq. destruct (workers σ !! sub) as [w|]; simpl.
      * by rewrite <- on_message_app.
      * apply sublist_nil_l.
    + rewrite list_lookup_alter_ne by done. by rewrite app_nil_r.
  - destruct (outstanding σ !! n) as [req|]; [|done].
    destruct (workers σ !! request_sub req) as [w|] eqn:Hw; [|done].
    destruct (consume _ _) as [[q' [s|]]|err] eqn:Hc; [|done..].
    destruct (resume _ _ _) as [σ' s'] eqn:Hr. rewrite proceed_queues.
    change σ' with (σ', s').1. rewrite <- Hr, resume_queues.
    unfold queues. simpl. rewrite list_fmap_insert. simpl.
    destruct (decide (request_sub req = sub)) as [Heq|Hne].
    + rewrite Heq in *. rewrite list_lookup_insert_eq
        by (rewrite length_fmap; by eapply lookup_lt_Some).
      rewrite list_lookup_fmap, Hw. simpl.
      apply consume_inv in Hc as (i & _ & ->). apply sublist_delete.
    + by rewrite list_lookup_insert_ne.
Qed.

(** X11. The queue of a worker is, at any time, a subsequence of what
    it held earlier followed by what arrived since, in the order of
    arrival: [consume] takes messages out, it never reorders or adds
    any. *)
Theorem queue_in_arrival_order σ es sub :
  queue_of (run σ es) sub `sublist_of` queue_of σ sub ++ arrivals sub es.
Proof.
  revert σ; induction es as [|e es IH]; intros σ.
  { simpl. by rewrite app_nil_r. }
  change (run σ (e :: es)) with (run (step σ e).1 es).
  etrans; [apply IH|].
  assert (arrivals sub (e :: es) = arrivals sub [e] ++ arrivals sub es) as ->.
  { destruct e; simpl; by rewrite ?app_nil_r. }
  rewrite app_assoc. apply sublist_app; [apply step_queue_of | done].
Qed.

End Runs.

(** ** The log route *)

Section LogsFacts.

Variable join : string → string.

Lemma ascii_compare_refl c : Ascii.compare c c = Eq.
Proof. unfold Ascii.compare. apply N.compare_refl. Qed.

Lemma ascii_compare_lt_trans a b c :
  Ascii.compare a b = Lt → Ascii.compare b c = Lt → Ascii.compare a c = Lt.
Proof. unfold Ascii.compare. rewrite !N.compare_lt_iff. lia. Qed.

Lemma string_compare_lt_trans s t u :
  String.compare s t = Lt → String.compare t u = Lt → String.compare s u = Lt.
Proof.
  revert t u; induction s as [|a s IH]; intros [|b t] [|c u]; simpl; try done.
  destruct (Ascii.compare a b) eqn:Hab; try done.
  - apply Ascii.compare_eq_iff in Hab as ->.
    destruct (Ascii.compare b c); try done. apply IH.
  - destruct (Ascii.compare b c) eqn:Hbc; try done.
    + apply Ascii.compare_eq_iff in Hbc as <-. by rewrite Hab.
    + by rewrite (ascii_compare_lt_trans _ _ _ Hab Hbc).
Qed.

Lemma code_unit_le_trans : Transitive code_unit_le.
Proof.
  intros s t u. unfold code_unit_le, String.leb.
  destruct (String.compare s t) eqn:Hst; [| |done].
  - apply String.compare_eq_iff in Hst as ->. done.
  - destruct (String.compare t u) eqn:Htu; [| |done].
    + apply String.compare_eq_iff in Htu as <-. by rewrite Hst.
    + by rewrite (string_compare_lt_trans _ _ _ Hst Htu).
Qed.

Lemma code_unit_le_total : Total code_unit_le.
Proof. intros s t. apply String.leb_total. Qed.

(** A string comes before the strings it is a prefix of. *)
Lemma prefix_code_unit_le s t : String.prefix s t = true → code_unit_le s t.
Proof.
  unfold code_unit_le, String.leb.
  revert t; induction s as [|a s IH]; intros [|b t]; simpl; try done.
  destruct (ascii_dec a b) as [->|]; [|done]. rewrite ascii_compare_refl. apply IH.
Qed.

Lemma prefix_refl s : String.prefix s s = true.
Proof. induction s as [|a s IH]; simpl; [done|]. by destruct (ascii_dec a a). Qed.

Lemma id_chars_spec n s :
  id_chars n s = true ↔
  ∃ core post, s = core +:+ post ∧ String.length core = n ∧
               Forall (λ c, id_char c = true) (list_ascii_of_string core).
Proof.
  revert s; induction n as [|n IH]; intros s; simpl.
  - split; [|done]. intros _. exists "", s. by repeat split.
  - destruct s as [|c s].
    + split; [done|]. intros ([|c core] & post & Hs & Hlen & _); done.
    + rewrite andb_true_iff, IH. split.
      * intros (Hc & core & post & -> & <- & Hall).
        exists (String c core), post. split_and!; [done..|]. by constructor.
      * intros ([|c' core] & post & Hs & Hlen & Hall); [done|].
        injection Hs as <- ->. injection Hlen as <-.
        apply Forall_cons in Hall as [Hc Hall]. split; [done|]. by exists core, post.
Qed.

Lemma id_pattern_test_spec s :
  id_pattern_test s = true ↔
  ∃ pre core post, s = pre +:+ core +:+ post ∧ String.length core = 36 ∧
                   Forall (λ c, id_char c = true) (list_ascii_of_string core).
Proof.
  induction s as [|c s IH].
  - cbn [id_pattern_test]. rewrite orb_false_r, id_chars_spec. split.
    + intros (core & post & H). by exists "", core, post.
    + intros ([|c pre] & core & post & Hs & H); [|done]. by exists core, post.
  - cbn [id_pattern_test]. rewrite orb_true_iff, IH, id_chars_spec. split.
    + intros [(core & post & H)|(pre & core & post & -> & H)].
      * by exists "", core, post.
      * by exists (String c pre), core, post.
    + intros ([|c' pre] & core & post & Hs & H).
      * left. by exists core, post.
      * right. injection Hs as <- ->. by exists pre, core, post.
Qed.

(** The sorted candidates start with the first log. *)
Lemma head_logFiles id files :
  match head (logFiles join id files) with
  | Some logFile => ∃ name, first_log id files name ∧ logFile = join name
  | None => ∀ name, name ∈ files → String.prefix (id +:+ ".log") name = false
  end.
Proof.
  unfold logFiles.
  set (candidates := filter _ files).
  pose proof (@StronglySorted_merge_sort _ code_unit_le _ code_unit_le_trans
                code_unit_le_total candidates) as Hsorted.
  pose proof (merge_sort_Permutation code_unit_le candidates) as Hperm.
  destruct (merge_sort code_unit_le candidates) as [|name sorted]; simpl.
  - intros name Hin. apply Permutation_nil_l in Hperm.
    destruct (String.prefix _ name) eqn:Hp; [|done].
    assert (name ∈ candidates) as Hc by (by apply list_elem_of_filter).
    rewrite <- Hperm in Hc. by apply not_elem_of_nil in Hc.
  - exists name. split; [|done].
    assert (name ∈ candidates) as [Hp Hin]%list_elem_of_filter.
    { rewrite <- Hperm. apply list_elem_of_here. }
    split_and!; [done..|]. intros name' Hin' Hp'.
    assert (name' ∈ name :: sorted) as [->|Hs]%elem_of_cons.
    { rewrite Hperm. by apply list_elem_of_filter. }
    + destruct (code_unit_le_total name name); done.
    + apply StronglySorted_inv in Hsorted as [_ Hall].
      rewrite Forall_forall in Hall. by apply Hall.
Qed.

Lemma first_log_unique id files name name' :
  first_log id files name → first_log id files name' → name = name'.
Proof.
  intros (Hin & Hp & Hle) (Hin' & Hp' & Hle').
  apply String.leb_antisym; [by apply Hle | by apply Hle'].
Qed.

(** X12. The pattern of the log route is not anchored: an id passes
    iff it holds 36 characters of [[0-9a-z-]] in a row anywhere; exactly
    the ids that do not pass are answered with status 400. *)
Theorem log_id_unanchored id files :
  (id_pattern_test id = true ↔
   ∃ pre core post, id = pre +:+ core +:+ post ∧ String.length core = 36 ∧
                    Forall (λ c, id_char c = true) (list_ascii_of_string core)) ∧
  (get_logs join id files = ctx_throw 400 ↔ id_pattern_test id = false).
Proof.
  split; [apply id_pattern_test_spec|]. unfold get_logs.
  destruct (id_pattern_test id); [|done].
  split; [|done]. by case_decide.
Qed.

(** X13. The file streamed by the log route is an entry of the listing
    whose name starts with [id.log], the first of them in the order of the
    code units; the answer is 404 when the listing has no such entry. *)
Theorem log_served id files :
  id_pattern_test id = true →
  (∀ logFile,
     get_logs join id files = ctx_body logFile ↔
     logFile ≠ "" ∧ ∃ name, first_log id files name ∧ logFile = join name) ∧
  ((∀ name, name ∈ files → String.prefix (id +:+ ".log") name = false) →
   get_logs join id files = ctx_throw 404).
Proof.
  intros Hid. unfold get_logs. rewrite Hid. cbn zeta.
  pose proof (head_logFiles id files) as Hhead. split.
  - intros logFile. destruct (head (logFiles join id files)) as [first|]; simpl.
    + destruct Hhead as (name & Hfirst & ->). case_decide as He.
      * split; [done|]. intros (Hne & name' & Hfirst' & ->).
        by rewrite (first_log_unique _ _ _ _ Hfirst Hfirst') in He.
      * split.
        -- intros [= <-]. split; [done|]. by exists name.
        -- intros (_ & name' & Hfirst' & ->).
           by rewrite (first_log_unique _ _ _ _ Hfirst Hfirst').
    + split; [done|]. intros (_ & name & (Hin & Hp & _) & _).
      rewrite (Hhead name Hin) in Hp. done.
  - intros Hnone. destruct (head (logFiles join id files)) as [first|]; simpl; [|done].
    destruct Hhead as (name & (Hin & Hp & _) & _). rewrite (Hnone name Hin) in Hp. done.
Qed.

(** X14. When the listing holds the current log [id.log] of the
    service, it is that file the route streams, not a rotated one. *)
Theorem current_log_first id files :
  id_pattern_test id = true → id +:+ ".log" ∈ files → join (id +:+ ".log") ≠ "" →
  get_logs join id files = ctx_body (join (id +:+ ".log")).
Proof.
  intros Hid Hin Hne. unfold get_logs. rewrite Hid. cbn zeta.
  pose proof (head_logFiles id files) as Hhead.
  assert (first_log id files (id +:+ ".log")) as Hfirst.
  { split_and!; [done|apply prefix_refl|]. intros name' _ Hp'.
    by apply prefix_code_unit_le. }
  destruct (head (logFiles join id files)) as [first|]; simpl.
  - destruct Hhead as (name & Hfirst' & ->).
    rewrite (first_log_unique _ _ _ _ Hfirst' Hfirst). by rewrite decide_False.
  - pose proof (Hhead _ Hin) as Hp. by rewrite prefix_refl in Hp.
Qed.

End LogsFacts.

(** ** Authentication *)

Section AuthenticationFacts.

Variable salted_hash : value → value.

Lemma own_property_Object_assign k (target : object) source :
  k ≠ "__proto__" →
  own_property k (Object_assign target source) =
  match own_property k (reverse (own_properties source)) with
  | Some v => Some v
  | None => own_property k target
  end.
Proof.
  intros Hk. unfold Object_assign. generalize (own_properties source) as l.
  intros l. revert target; induction l as [|[k' v'] l IH]; intros target; simpl; [done|].
  rewrite IH, reverse_cons, own_property_app. simpl.
  destruct (own_property k (reverse l)); [done|].
  destruct (decide (k' = k)) as [->|Hne].
  - by apply own_property_set_eq.
  - by apply own_property_set_ne.
Qed.

Lemma wrapped_user_token user password :
  get_property (wrapped_user salted_hash user password) "token" =
  Normal (token_of salted_hash user password).
Proof.
  unfold wrapped_user, token_of. simpl. rewrite own_property_Object_assign by done. simpl.
  by destruct (own_property "token" (reverse (own_properties user))).
Qed.

Lemma createWrappedUsers_inv users wrapped :
  createWrappedUsers salted_hash users = Normal wrapped →
  Forall2 (λ user w, ∃ password,
             get_property user "password" = Normal password ∧
             w = wrapped_user salted_hash user password) users wrapped.
Proof.
  revert wrapped; induction users as [|user users IH]; intros wrapped; simpl.
  - intros [= <-]. constructor.
  - destruct (get_property user "password") as [password|e] eqn:Hp; simpl; [|done].
    destruct (createWrappedUsers salted_hash users) as [wrapped'|e]; simpl; [|done].
    intros [= <-]. constructor; [by exists password | by apply IH].
Qed.

Lemma find_token_inv wrapped token :
  Forall (λ w, ∃ t, get_property w "token" = Normal t) wrapped →
  match find_token wrapped token with
  | Normal (Some user) =>
      ∃ i t, wrapped !! i = Some user ∧ get_property user "token" = Normal t ∧
             strict_equals t token = true ∧
             ∀ j w t', j < i → wrapped !! j = Some w →
                       get_property w "token" = Normal t' → strict_equals t' token = false
  | Normal None =>
      ∀ w t, w ∈ wrapped → get_property w "token" = Normal t →
             strict_equals t token = false
  | Throw _ => False
  end.
Proof.
  induction 1 as [|w wrapped [t Ht] _ IH]; simpl.
  - intros w t Hin. by apply not_elem_of_nil in Hin.
  - rewrite Ht. simpl. destruct (strict_equals t token) eqn:Heq.
    + exists 0, t. split_and!; [done..|]. intros j ? ? Hj. lia.
    + destruct (find_token wrapped token) as [[user|]|e]; [| |done].
      * destruct IH as (i & t' & Hi & Ht' & Heq' & Hlt). exists (S i), t'.
        split_and!; [done..|]. intros [|j] w' t'' Hj Hw' Hw''; simplify_eq/=; [congruence|].
        apply (Hlt j w'); [lia|done..].
      * intros w' t' [->|Hin]%elem_of_cons Hw'; [congruence|]. by apply (IH w' t').
Qed.

(** X15. A user record that holds a [token] of its own is wrapped with
    that token, not with the hash of its password: [Object.assign] copies
    the fields of the record over the computed one.  The other fields of
    the record are kept. *)
Theorem stored_token_overrides users wrapped :
  createWrappedUsers salted_hash users = Normal wrapped →
  Forall2 (λ user w, ∃ password,
             get_property user "password" = Normal password ∧
             get_property w "token" =
             Normal (default (salted_hash password)
                       (own_property "token" (reverse (own_properties user)))) ∧
             ∀ k v, k ≠ "__proto__" →
                    own_property k (reverse (own_properties user)) = Some v →
                    get_property w k = Normal v) users wrapped.
Proof.
  intros Hw%createWrappedUsers_inv. eapply Forall2_impl; [done|].
  intros user w (password & Hp & ->). exists password. split_and!; [done| |].
  - apply wrapped_user_token.
  - intros k v Hk Hv. unfold wrapped_user. simpl.
    by rewrite own_property_Object_assign, Hv.
Qed.

Lemma createWrappedUsers_Normal users :
  (∃ wrapped, createWrappedUsers salted_hash users = Normal wrapped) ↔
  Forall (λ user, ∃ password, get_property user "password" = Normal password) users.
Proof.
  induction users as [|user users IH]; simpl.
  - split; [constructor | by eexists].
  - rewrite Forall_cons, <- IH.
    destruct (get_property user "password") as [password|e]; simpl.
    + destruct (createWrappedUsers salted_hash users) as [wrapped|e]; simpl.
      * split; [intros _; split; by eexists | by eexists].
      * split; [by intros [? ?] | by intros [_ [? ?]]].
    + split; [by intros [? ?] | by intros [[? ?] _]].
Qed.

(** X16. [/verify] answers 200 for exactly the tokens the socket
    middleware lets in, 403 for those it turns away, and the two throw
    together; a token is let in iff it is strictly equal to the token of a
    user, and the user put on the handshake is the first such. *)
Theorem verify_as_handshake users token :
  (verify salted_hash users token = Normal (ctx_status 200) ↔
   ∃ user, authentication salted_hash users token = Normal (next_user user)) ∧
  (verify salted_hash users token = Normal (ctx_throw 403) ↔
   authentication salted_hash users token = Normal (next_error "authentication error")) ∧
  (∀ e, verify salted_hash users token = Throw e ↔
        authentication salted_hash users token = Throw e) ∧
  (∀ user,
     authentication salted_hash users token = Normal (next_user user) ↔
     Forall (λ record, ∃ password, get_property record "password" = Normal password) users ∧
     ∃ i record password,
       users !! i = Some record ∧
       get_property record "password" = Normal password ∧
       user = wrapped_user salted_hash record password ∧
       strict_equals (token_of salted_hash record password) token = true ∧
       ∀ j earlier password',
         j < i → users !! j = Some earlier →
         get_property earlier "password" = Normal password' →
         strict_equals (token_of salted_hash earlier password') token = false).
Proof.
  pose proof (createWrappedUsers_Normal users) as Hnormal.
  unfold verify, authentication.
  destruct (createWrappedUsers salted_hash users) as [wrapped|e] eqn:Hwrapped; simpl.
  2: { split_and!; [trivial_iff..|].
       intros user. split; [done|]. intros [[? ?]%Hnormal _]. done. }
  pose proof (createWrappedUsers_inv _ _ Hwrapped) as Hinv.
  assert (Forall (λ w, ∃ t, get_property w "token" = Normal t) wrapped) as Htokens.
  { apply Forall2_Forall_r with (Q := λ w, ∃ t, get_property w "token" = Normal t) in Hinv;
      [done|]. apply Forall_forall. intros user _ w (password & _ & ->).
    eexists. apply wrapped_user_token. }
  pose proof (find_token_inv wrapped token Htokens) as Hfind.
  assert (Forall (λ record, ∃ password, get_property record "password" = Normal password)
            users) as Hall by (apply Hnormal; by eexists).
  destruct (find_token wrapped token) as [[user|]|e]; simpl; [| |done].
  - split_and!; [trivial_iff..|].
    intros user'. destruct Hfind as (i & t & Hi & Ht & Heq & Hlt).
    destruct (Forall2_lookup_r _ _ _ _ _ Hinv Hi) as (record & Hrecord & password & Hp & ->).
    rewrite wrapped_user_token in Ht. injection Ht as <-.
    split.
    + intros [= <-]. split; [done|]. exists i, record, password. split_and!; [done..|].
      intros j earlier p' Hj Hearlier Hp'.
      destruct (Forall2_lookup_l _ _ _ _ _ Hinv Hearlier) as (w & Hw & p'' & Hp'' & ->).
      rewrite Hp' in Hp''. injection Hp'' as <-.
      apply (Hlt j _ _ Hj Hw). apply wrapped_user_token.
    + intros (_ & i' & record' & password' & Hi' & Hp' & -> & Heq' & He).
      destruct (Nat.lt_trichotomy i i') as [Hlt'|[<-|Hlt']].
      * rewrite (He i _ _ Hlt' Hrecord Hp) in Heq. done.
      * rewrite Hrecord in Hi'. injection Hi' as <-.
        rewrite Hp in Hp'. by injection Hp' as <-.
      * destruct (Forall2_lookup_l _ _ _ _ _ Hinv Hi') as (w & Hw & p' & Hp'' & ->).
        rewrite Hp' in Hp''. injection Hp'' as <-.
        rewrite (Hlt i' _ _ Hlt' Hw (wrapped_user_token _ _)) in Heq'. done.
  - split_and!; [trivial_iff..|].
    intros user. split; [done|].
    intros (_ & i & record & password & Hi & Hp & -> & Heq & _).
    destruct (Forall2_lookup_l _ _ _ _ _ Hinv Hi) as (w & Hw & p' & Hp' & ->).
    rewrite Hp in Hp'. injection Hp' as <-. apply list_elem_of_lookup_2 in Hw.
    rewrite (Hfind _ _ Hw (wrapped_user_token _ _)) in Heq. done.
Qed.

End AuthenticationFacts.

(** ** The properties on concrete runs *)

Section Examples.

Import Scenario.

#[local] Existing Instance sample.



Lemma getServiceInfo_by_entry_witness :
  entry_of running "svc1" = active 0 ∧
  (await running [ECall (GetServiceInfo "svc1");
                  EMessage 0 (reply "getStatus/done" (VObj [("pid", VNum 7)]));
                  ETurn 0]).2 =
  Settled (Resolved (VObj [("status", VNum 0); ("pid", VNum 7)])).
Proof.
  split; [reflexivity|].
  destruct (getServiceInfo_by_entry running "svc1") as (_ & _ & Hactive & _).
  destruct (Hactive 0 eq_refl) as (_ & _ & Hlive).
  apply (Hlive (Worker [] [Action "start" config] false) (VObj [("pid", VNum 7)]));
    [reflexivity|constructor..].
Defined.


Lemma stop_not_found_witness :
  step stopped (ECall (Stop "svc1")) = (stopped, Settled (Rejected (not_found "svc1"))) ∧
  entry_of (step stopping (ETurn 0)).1 "svc1" = tombstoned.
Proof.
  split.
  - apply (stop_not_found stopped "svc1"). by right.
  - destruct (stop_not_found stopping "svc1") as [_ Hagain].
    by destruct (Hagain 0 0
                   (Worker [reply "stop/done" VUndefined]
                           [Action "start" config; Action "stop" VUndefined] false)
                   [] VUndefined eq_refl eq_refl eq_refl) as (_ & ? & _).
Defined.

Lemma dropped_non_object_message_witness :
  typeof (VStr "ready") ≠ "object" ∧
  step running (EMessage 0 (VStr "ready")) = (running, Pending).
Proof.
  assert (typeof (VStr "ready") ≠ "object") as Htype by discriminate.
  split; [done|]. by apply (dropped_non_object_message running 0 (VStr "ready")).
Defined.

Lemma getMetrics_dispatch_witness :
  step stopped (ECall (GetMetrics "svc1" (VStr "traffic"))) =
  (stopped, Settled (Resolved (VArr []))) ∧
  step running (ECall (GetMetrics "svc1" (VStr "cpu"))) =
  (invoke running 0 "getCPUMetrics" VUndefined [], Pending).
Proof.
  split.
  - apply (getMetrics_dispatch stopped "svc1"). by right.
  - apply (getMetrics_dispatch running "svc1"); [reflexivity|]. apply list_elem_of_here.
Defined.

Lemma consume_removes_first_match_witness :
  queues (step contended (ETurn 0)).1 = [[]] ∧
  step (step contended (ETurn 0)).1 (ETurn 0) = ((step contended (ETurn 0)).1, Pending).
Proof.
  split.
  - destruct (consume_removes_first_match contended 0
                (Request 0 "start" [start_catch "svc1"])
                (Worker [reply "start/done" VUndefined]
                        [Action "start" config; Action "start" config; Action "start" config]
                        false) eq_refl eq_refl) as [Hclaimed _].
    by destruct (Hclaimed [] (Resolve VUndefined) eq_refl)
      as (i & message & _ & _ & _ & _ & Hqueues & _).
  - destruct (consume_removes_first_match (step contended (ETurn 0)).1 0
                (Request 0 "start" [start_catch "svc1"])
                (Worker []
                        [Action "start" config; Action "start" config; Action "start" config]
                        false) eq_refl eq_refl) as [_ Hnone].
    by destruct (Hnone [] eq_refl).
Defined.

Lemma getServices_result_witness :
  Map_keys (subprocesses mixed) = ["svc1"; "svc2"] ∧
  (await mixed (ECall GetServices
                  :: status_replies (subprocesses mixed) [VObj [("pid", VNum 7)]])).2 =
  Settled (Resolved (VObj [("svc1", VObj [("status", VNum 0); ("pid", VNum 7)]);
                           ("svc2", VObj [("status", VNum 1)])])).
Proof.
  split; [reflexivity|].
  destruct (getServices_result mixed) as (_ & Hreplied & _); [compute_done|reflexivity|].
  apply (Hreplied [VObj [("pid", VNum 7)]]); [|reflexivity].
  intros sub [->|[]%not_elem_of_nil]%elem_of_cons.
  eexists. split; [reflexivity|]. split; constructor.
Defined.

Lemma stop_failure_keeps_entry_witness :
  (step stop_refusing (ETurn 0)).2 = Settled (Rejected (Error (VStr "busy"))) ∧
  entry_of (step stop_refusing (ETurn 0)).1 "svc1" = active 0 ∧
  flags (step stop_refusing (ETurn 0)).1 = [false].
Proof.
  destruct (stop_failure_keeps_entry stop_refusing 0 "svc1" 0
              (Worker [reply "stop/error" (VStr "busy")]
                      [Action "start" config; Action "stop" VUndefined] false)
              [] (Error (VStr "busy")) eq_refl eq_refl eq_refl)
    as (Hrejected & _ & _ & Hflags & Hkept).
  split_and!; [done| |done]. by destruct (Hkept eq_refl).
Defined.


(** C6, as stated, fails: an object without a [type] is queued, and the
    next scan throws out of the [consume] callback. *)
Lemma dropped_non_object_message_counterexample :
  message_type (VObj []) = None ∧
  on_message [] (VObj []) = [VObj []] ∧
  scanQueue [VObj []] "start" = Throw TypeError ∧
  (await initial [ECall (Start "svc1" config); EMessage 0 (VObj []); ETurn 0]).2 =
  Uncaught TypeError.
Proof. by split_and!. Qed.

(** C9, as stated, fails: an id inserted by a start that failed is not in
    the result; ids that are array indices come in numeric order, not in
    the order of insertion; and the id [__proto__] is no key of the result. *)
Lemma getServices_result_counterexample :
  entry_of refusing "svc1" = active 0 ∧
  await (run refusing [ETurn 0]) [ECall GetServices] =
  (run refusing [ETurn 0], Settled (Resolved (VObj []))) ∧
  Map_keys (subprocesses numbered) = ["10"; "9"] ∧
  (await numbered (ECall GetServices
                     :: status_replies (subprocesses numbered) [VNull; VNull])).2 =
  Settled (Resolved (VObj [("9", VObj [("status", VNum 0)]);
                           ("10", VObj [("status", VNum 0)])])) ∧
  Map_keys (subprocesses proto) = ["__proto__"] ∧
  (await proto (ECall GetServices :: status_replies (subprocesses proto) [VNull])).2 =
  Settled (Resolved (VObj [])).
Proof. by split_and!. Qed.

(** *** Runs of the manager, and the server *)

Lemma getMetrics_unknown_kind_witness :
  entry_of running "svc1" = active 0 ∧
  step running (ECall (GetMetrics "svc1" (VStr "disk"))) =
  (running, Settled (Resolved VUndefined)).
Proof.
  split; [reflexivity|].
  apply (getMetrics_unknown_kind running "svc1" 0 (VStr "disk") eq_refl).
  intros kind Hkind [= <-]. revert Hkind. compute_done.
Defined.

Lemma no_request_to_killed_worker_witness :
  sequential stopped ∧
  workers (step stopped (ECall (Start "svc1" config))).1 !! 0 =
  Some (Worker [] [Action "start" config; Action "stop" VUndefined] true) ∧
  sent (Worker [] [Action "start" config; Action "stop" VUndefined] true) =
  [Action "start" config; Action "stop" VUndefined].
Proof.
  assert (sequential stopped) as Hseq.
  { apply sequential_run; [apply sequential_run; [constructor|]|]; simpl; tauto. }
  split_and!; [done|reflexivity|].
  apply (no_request_to_killed_worker stopped (ECall (Start "svc1" config)) 0
           (Worker [] [Action "start" config; Action "stop" VUndefined] true)
           (Worker [] [Action "start" config; Action "stop" VUndefined] true)
           Hseq eq_refl eq_refl eq_refl eq_refl).
Defined.

Lemma untyped_message_stays_witness :
  queued poisoned 0 (VObj []) ∧
  queued (run poisoned [ETurn 0; EMessage 0 (reply "start/done" VUndefined); ETurn 0])
         0 (VObj []).
Proof.
  assert (queued poisoned 0 (VObj [])) as Hqueued.
  { exists [VObj []]. split; [reflexivity | apply list_elem_of_here]. }
  split; [done|]. by apply (untyped_message_stays poisoned _ 0 (VObj []) Hqueued).
Defined.

Lemma no_reply_no_settlement_witness :
  outstanding starting = [Request 0 "start" [start_catch "svc1"]] ∧
  (await starting [ETurn 0; EMessage 0 (reply "ready" VNull); ETurn 0; ETurn 1]).2 =
  Pending.
Proof.
  split; [reflexivity|].
  destruct (no_reply_no_settlement starting (Request 0 "start" [start_catch "svc1"])
              (Worker [] [Action "start" config] false)
              [ETurn 0; EMessage 0 (reply "ready" VNull); ETurn 0; ETurn 1])
    as (Hawait & _); [reflexivity|reflexivity|by split| |by rewrite Hawait].
  repeat (apply Forall_cons; split); [done| |done|done|constructor].
  intros _ _. split; [by eexists | reflexivity].
Defined.

Lemma stop_resolves_witness :
  (await running (stop_ok "svc1" 0)).2 = Settled (Resolved VUndefined) ∧
  flags (await running (stop_ok "svc1" 0)).1 = [true].
Proof.
  destruct (stop_resolves running "svc1" 0 (Worker [] [Action "start" config] false)
              VUndefined eq_refl eq_refl)
    as (Hawait & _ & Hflags & _); [split; constructor|].
  split; [exact (f_equal snd Hawait) | exact (f_equal (flags ∘ fst) Hawait)].
Defined.

Lemma failed_start_orphans_witness :
  sequential refusing ∧
  entry_of (run refusing (ETurn 0 :: start_ok "svc1" 1)) "svc1" = active 1 ∧
  ∃ w, workers (run refusing (ETurn 0 :: start_ok "svc1" 1)) !! 0 = Some w ∧
       killed w = false ∧ sent w = [Action "start" config].
Proof.
  assert (sequential refusing) as Hseq.
  { apply sequential_run; [constructor|]. simpl; tauto. }
  split_and!; [done|reflexivity|].
  apply (failed_start_orphans refusing "svc1" 0
           (Worker [reply "start/error" (VStr "EADDRINUSE")] [Action "start" config] false)
           [] (Error (VStr "EADDRINUSE")) (start_ok "svc1" 1) Hseq eq_refl eq_refl eq_refl).
  simpl; tauto.
Defined.

Lemma log_served_witness :
  id_pattern_test log_id = true ∧
  ∃ name, first_log log_id listing name ∧
          "/var/log/blinksocks/3f2a9b1c-7d4e-4a6b-8c9d-0e1f2a3b4c5d.log" = log_path name.
Proof.
  split; [reflexivity|].
  destruct (log_served log_path log_id listing eq_refl) as [Hserved _].
  by apply (Hserved "/var/log/blinksocks/3f2a9b1c-7d4e-4a6b-8c9d-0e1f2a3b4c5d.log").
Defined.

Lemma current_log_first_witness :
  log_id +:+ ".log" ∈ listing ∧
  get_logs log_path log_id listing = ctx_body (log_path (log_id +:+ ".log")).
Proof.
  assert (log_id +:+ ".log" ∈ listing) as Hin by compute_done.
  split; [done|]. by apply (current_log_first log_path log_id listing eq_refl Hin).
Defined.

Lemma stored_token_overrides_witness :
  createWrappedUsers sample_hash users = Normal wrapped ∧
  get_property (VObj [("token", VStr "letmein"); ("name", VStr "guest");
                      ("password", VStr "guest")]) "token" =
  Normal (VStr "letmein").
Proof.
  split; [reflexivity|].
  pose proof (stored_token_overrides sample_hash users wrapped eq_refl) as Hall.
  apply Forall2_cons_1 in Hall as [_ Hall].
  apply Forall2_cons_1 in Hall as [(password & _ & Htoken & _) _].
  exact Htoken.
Defined.

End Examples.
